(** * Stim: conversions between stabilizer representations

    A shallow embedding of [src/stim/stabilizers/conversions.h] and the
    properties its specification states about it.

    The header defines three functions inline ([floor_lg2],
    [is_power_of_2], [unitary_circuit_inverse]) and declares the rest whose
    bodies live in [conversions.inl]. *)

From Stdlib Require Import ZArith Lia List Bool Arith Permutation.
From Stdlib Require String QArith_base.
Import ListNotations.

Set Implicit Arguments.

(** ** Machine integers *)

Module Bits.
Local Open Scope Z_scope.

(** [size_t] is a 64-bit unsigned integer, [uint8_t] an 8-bit one. *)
Definition size_t_bits : Z := 64.
Definition size_t_wrap (z : Z) : Z := z mod 2 ^ size_t_bits.
Definition uint8_wrap (z : Z) : Z := z mod 2 ^ 8.
Definition is_size_t (z : Z) : Prop := 0 <= z < 2 ^ size_t_bits.

(** <<
    inline uint8_t floor_lg2(size_t value) {
        uint8_t result = 0;
        while (value > 1) {
            result += 1;
            value >>= 1;
        }
        return result;
    }
    >>
    The loop is run with fuel; [None] means the fuel ran out. *)
Fixpoint floor_lg2_loop (fuel : nat) (value result : Z) : option Z :=
  if 1 <? value then
    match fuel with
    | O => None
    | S fuel' => floor_lg2_loop fuel' (Z.shiftr value 1) (uint8_wrap (result + 1))
    end
  else Some result.

Definition floor_lg2 (value : Z) : option Z :=
  floor_lg2_loop 64 value 0.

(** <<
    inline uint8_t is_power_of_2(size_t value) {
        return value != 0 && (value & (value - 1)) == 0;
    }
    >>
    [value - 1] is computed in [size_t], so it wraps; [&&] short-circuits,
    which the lazy [if] keeps.  The boolean is returned as a [uint8_t]. *)
Definition is_power_of_2 (value : Z) : Z :=
  if (if negb (value =? 0)
      then Z.land value (size_t_wrap (value - 1)) =? 0
      else false)
  then 1 else 0.

Example is_power_of_2_64 : is_power_of_2 64 = 1.
Proof. reflexivity. Qed.

Example is_power_of_2_12 : is_power_of_2 12 = 0.
Proof. reflexivity. Qed.

Example is_power_of_2_max : is_power_of_2 (2 ^ 64 - 1) = 0.
Proof. reflexivity. Qed.

Example floor_lg2_1 : floor_lg2 1 = Some 0.
Proof. reflexivity. Qed.

Example floor_lg2_max : floor_lg2 (2 ^ 64 - 1) = Some 63.
Proof. reflexivity. Qed.

(** *** Facts about the bit operations *)

Lemma land_even_odd (a b : Z) :
  Z.land (2 * a) (2 * b + 1) = 2 * Z.land a b.
Proof.
  apply Z.bits_inj'. intros n Hn.
  rewrite Z.land_spec.
  destruct (Z.eq_dec n 0) as [->|Hnz].
  - rewrite Z.testbit_even_0, Z.testbit_even_0. reflexivity.
  - replace n with (Z.succ (n - 1)) by lia.
    rewrite Z.testbit_even_succ, Z.testbit_odd_succ, Z.testbit_even_succ by lia.
    now rewrite Z.land_spec.
Qed.

Lemma land_odd_even (a b : Z) :
  Z.land (2 * a + 1) (2 * b) = 2 * Z.land a b.
Proof. now rewrite Z.land_comm, land_even_odd, Z.land_comm. Qed.

(** [v & (v - 1)] clears the lowest set bit, so it vanishes exactly on the
    powers of two. *)
Lemma land_pred_pos (p : positive) :
  Z.land (Z.pos p) (Z.pos p - 1) = 0 <-> exists k : nat, Z.pos p = 2 ^ Z.of_nat k.
Proof.
  induction p as [q IH|q IH|].
  - (* 2q+1 : odd and above 1 *)
    replace (Z.pos q~1) with (2 * Z.pos q + 1) by lia.
    replace (2 * Z.pos q + 1 - 1) with (2 * Z.pos q) by lia.
    rewrite land_odd_even, Z.land_diag.
    split; [lia|].
    intros [k Hk]. destruct k as [|k].
    + simpl in Hk. lia.
    + rewrite Nat2Z.inj_succ, Z.pow_succ_r in Hk by lia. lia.
  - (* 2q *)
    replace (Z.pos q~0) with (2 * Z.pos q) by lia.
    replace (2 * Z.pos q - 1) with (2 * (Z.pos q - 1) + 1) by lia.
    rewrite land_even_odd.
    split.
    + intros H. assert (H' : Z.land (Z.pos q) (Z.pos q - 1) = 0) by lia.
      apply IH in H'. destruct H' as [k Hk]. exists (S k).
      rewrite Nat2Z.inj_succ, Z.pow_succ_r by lia. lia.
    + intros [k Hk]. destruct k as [|k].
      * simpl in Hk. lia.
      * rewrite Nat2Z.inj_succ, Z.pow_succ_r in Hk by lia.
        assert (Hq : Z.pos q = 2 ^ Z.of_nat k) by lia.
        assert (H' : Z.land (Z.pos q) (Z.pos q - 1) = 0) by (apply IH; eauto).
        lia.
  - split; [intros _; exists O; reflexivity | reflexivity].
Qed.

Lemma is_power_of_2_true (value : Z) :
  is_size_t value ->
  (is_power_of_2 value = 1 <-> exists k : nat, value = 2 ^ Z.of_nat k).
Proof.
  unfold is_size_t, is_power_of_2, size_t_wrap, size_t_bits. intros Hr.
  destruct (Z.eqb_spec value 0) as [->|Hnz]; simpl.
  - split; [discriminate|]. intros [k Hk].
    pose proof (Z.pow_pos_nonneg 2 (Z.of_nat k)). lia.
  - rewrite Z.mod_small by lia.
    destruct value as [|p|p]; try lia.
    destruct (Z.eqb_spec (Z.land (Z.pos p) (Z.pos p - 1)) 0) as [E|E].
    + split; [intros _; now apply land_pred_pos | reflexivity].
    + split; [discriminate|]. intros H. apply land_pred_pos in H. contradiction.
Qed.

Lemma is_power_of_2_bool (value : Z) :
  is_power_of_2 value = 1 \/ is_power_of_2 value = 0.
Proof.
  unfold is_power_of_2.
  destruct (if negb (value =? 0) then _ else false); auto.
Qed.

Lemma floor_lg2_loop_log2 (fuel : nat) :
  forall value result,
    0 <= value < 2 ^ Z.of_nat fuel ->
    0 <= result ->
    result + Z.log2 value < 2 ^ 8 ->
    floor_lg2_loop fuel value result = Some (result + Z.log2 value).
Proof.
  change (2 ^ 8) with 256.
  induction fuel as [|fuel IH]; intros value result Hv Hr Hb.
  - simpl in *. destruct (Z.ltb_spec 1 value); [lia|].
    rewrite Z.log2_nonpos by lia. f_equal. lia.
  - cbn [floor_lg2_loop].
    destruct (Z.ltb_spec 1 value) as [Hgt|Hle].
    + assert (Hlog : Z.log2 value = Z.succ (Z.log2 (Z.shiftr value 1))).
      { rewrite Z.log2_shiftr by lia.
        assert (0 < Z.log2 value) by (apply Z.log2_pos; lia). lia. }
      pose proof (Z.log2_nonneg (Z.shiftr value 1)) as Hnn.
      unfold uint8_wrap. change (2 ^ 8) with 256.
      rewrite Z.mod_small by lia.
      rewrite IH.
      * f_equal. lia.
      * rewrite Z.shiftr_div_pow2 by lia. change (2 ^ 1) with 2.
        rewrite Nat2Z.inj_succ, Z.pow_succ_r in Hv by lia.
        split; [apply Z.div_pos; lia | apply Z.div_lt_upper_bound; lia].
      * lia.
      * lia.
    + assert (Z.log2 value = 0).
      { destruct (Z.eq_dec value 1) as [->|]; [reflexivity|].
        apply Z.log2_nonpos. lia. }
      f_equal. lia.
Qed.

Lemma floor_lg2_log2 (value : Z) :
  is_size_t value -> floor_lg2 value = Some (Z.log2 value).
Proof.
  unfold is_size_t, size_t_bits, floor_lg2. intros Hr.
  rewrite floor_lg2_loop_log2; try (f_equal; lia); try lia.
  destruct (Z.eq_dec value 0) as [->|Hnz]; [simpl; lia|].
  assert (Z.log2 value < 64) by (apply Z.log2_lt_pow2; lia).
  change (2 ^ 8) with 256. lia.
Qed.

(** C10. On every [size_t] value, [is_power_of_2] answers 1 exactly on the
    powers of two (and 0 elsewhere, in particular on 0); [floor_lg2] returns,
    on a value of at least 1, the greatest [k] with [2^k <= value], and
    returns 0 on 0. *)
Theorem floor_lg2_is_power_of_2_spec (value : Z) (Hrange : is_size_t value) :
  (is_power_of_2 value = 1 <-> exists k : nat, value = 2 ^ Z.of_nat k) /\
  (is_power_of_2 value = 1 \/ is_power_of_2 value = 0) /\
  is_power_of_2 0 = 0 /\
  (exists k, floor_lg2 value = Some k /\
     (1 <= value ->
        0 <= k /\ 2 ^ k <= value /\ forall j, 0 <= j -> 2 ^ j <= value -> j <= k)) /\
  floor_lg2 0 = Some 0.
Proof.
  split; [now apply is_power_of_2_true|].
  split; [apply is_power_of_2_bool|].
  split; [reflexivity|].
  split; [|reflexivity].
  exists (Z.log2 value). split; [now apply floor_lg2_log2|].
  intros Hpos.
  split; [apply Z.log2_nonneg|].
  split; [apply Z.log2_spec; lia|].
  intros j Hj Hle. apply Z.log2_le_pow2; lia.
Qed.

Lemma floor_lg2_is_power_of_2_spec_witness :
  is_size_t 40 /\
  (exists k, floor_lg2 40 = Some k /\
     (1 <= 40 ->
        0 <= k /\ 2 ^ k <= 40 /\ forall j, 0 <= j -> 2 ^ j <= 40 -> j <= k)).
Proof.
  assert (H : is_size_t 40) by (unfold is_size_t, size_t_bits; lia).
  split; [exact H|].
  exact (proj1 (proj2 (proj2 (proj2 (floor_lg2_is_power_of_2_spec H))))).
Defined.

(** *** More about the two helpers *)

(** X1. [is_power_of_2] accepts exactly the values on which [floor_lg2] is
    an exact logarithm: the values [2 ^ floor_lg2 value]. *)
Theorem floor_lg2_exact_on_powers (value : Z) (Hrange : is_size_t value) :
  is_power_of_2 value = 1 <->
  exists k, floor_lg2 value = Some k /\ 2 ^ k = value.
Proof.
  rewrite floor_lg2_log2 by assumption. split.
  - intros Hp. apply is_power_of_2_true in Hp; [|assumption].
    destruct Hp as [k ->]. exists (Z.of_nat k).
    rewrite Z.log2_pow2 by lia. auto.
  - intros (k & E & Hk). inversion E; subst k.
    apply is_power_of_2_true; [assumption|].
    exists (Z.to_nat (Z.log2 value)).
    rewrite Z2Nat.id by apply Z.log2_nonneg. now symmetry.
Qed.

Lemma floor_lg2_exact_on_powers_witness :
  is_size_t 1024 /\
  (is_power_of_2 1024 = 1 <-> exists k, floor_lg2 1024 = Some k /\ 2 ^ k = 1024).
Proof.
  assert (H : is_size_t 1024) by (unfold is_size_t, size_t_bits; lia).
  split; [exact H|]. exact (floor_lg2_exact_on_powers H).
Defined.

(** X2. On every [size_t] value [floor_lg2] returns a number from 0 to 63,
    so the [uint8_t] counter never wraps, and the result is 0 exactly on the
    values 0 and 1, where the loop body is not entered. *)
Theorem floor_lg2_range (value : Z) (Hrange : is_size_t value) :
  exists k, floor_lg2 value = Some k /\ 0 <= k <= 63 /\ (k = 0 <-> value <= 1).
Proof.
  exists (Z.log2 value). split; [now apply floor_lg2_log2|].
  unfold is_size_t, size_t_bits in Hrange.
  split.
  - split; [apply Z.log2_nonneg|].
    destruct (Z.eq_dec value 0) as [->|Hnz]; [cbn; lia|].
    assert (Z.log2 value < 64) by (apply Z.log2_lt_pow2; lia). lia.
  - apply Z.log2_null.
Qed.

Lemma floor_lg2_range_witness :
  is_size_t (2 ^ 64 - 1) /\
  exists k, floor_lg2 (2 ^ 64 - 1) = Some k /\ 0 <= k <= 63 /\
            (k = 0 <-> 2 ^ 64 - 1 <= 1).
Proof.
  assert (H : is_size_t (2 ^ 64 - 1)) by (unfold is_size_t, size_t_bits; lia).
  split; [exact H|]. exact (floor_lg2_range H).
Defined.

(** X3. [floor_lg2] is monotone: a larger value never has a smaller
    result. *)
Theorem floor_lg2_monotone (a b : Z)
    (Ha : is_size_t a) (Hb : is_size_t b) (Hle : a <= b) :
  exists ka kb, floor_lg2 a = Some ka /\ floor_lg2 b = Some kb /\ ka <= kb.
Proof.
  exists (Z.log2 a), (Z.log2 b).
  split; [now apply floor_lg2_log2|]. split; [now apply floor_lg2_log2|].
  now apply Z.log2_le_mono.
Qed.

Lemma floor_lg2_monotone_witness :
  is_size_t 5 /\ is_size_t 300 /\ 5 <= 300 /\
  exists ka kb, floor_lg2 5 = Some ka /\ floor_lg2 300 = Some kb /\ ka <= kb.
Proof.
  assert (Ha : is_size_t 5) by (unfold is_size_t, size_t_bits; lia).
  assert (Hb : is_size_t 300) by (unfold is_size_t, size_t_bits; lia).
  assert (Hle : 5 <= 300) by lia.
  repeat (split; [assumption|]). exact (floor_lg2_monotone Ha Hb Hle).
Defined.

(** X4. On a value that is not 0, [floor_lg2] is the index of the highest
    set bit: that bit is set and every bit above it is clear. *)
Theorem floor_lg2_highest_bit (value : Z)
    (Hrange : is_size_t value) (Hpos : 1 <= value) :
  exists k, floor_lg2 value = Some k /\
            Z.testbit value k = true /\
            forall i, k < i -> Z.testbit value i = false.
Proof.
  exists (Z.log2 value). split; [now apply floor_lg2_log2|]. split.
  - apply Z.bit_log2. lia.
  - intros i Hi. apply Z.bits_above_log2; lia.
Qed.

Lemma floor_lg2_highest_bit_witness :
  is_size_t 40 /\ 1 <= 40 /\
  exists k, floor_lg2 40 = Some k /\ Z.testbit 40 k = true /\
            forall i, k < i -> Z.testbit 40 i = false.
Proof.
  assert (H : is_size_t 40) by (unfold is_size_t, size_t_bits; lia).
  assert (Hpos : 1 <= 40) by lia.
  split; [exact H|]. split; [exact Hpos|]. exact (floor_lg2_highest_bit H Hpos).
Defined.

(** X5. Appending a low bit to a value that is not 0 adds one to
    [floor_lg2], whatever the bit: the result on [2 * value] and on
    [2 * value + 1] is one more than on [value]. *)
Theorem floor_lg2_double (value : Z)
    (Hpos : 1 <= value) (Hrange : is_size_t (2 * value + 1)) :
  exists k, floor_lg2 value = Some k /\
            floor_lg2 (2 * value) = Some (k + 1) /\
            floor_lg2 (2 * value + 1) = Some (k + 1).
Proof.
  assert (H1 : is_size_t value) by (unfold is_size_t in *; lia).
  assert (H2 : is_size_t (2 * value)) by (unfold is_size_t in *; lia).
  exists (Z.log2 value). rewrite !floor_lg2_log2 by assumption.
  split; [reflexivity|]. split; f_equal.
  - rewrite Z.log2_double by lia. lia.
  - rewrite Z.log2_succ_double by lia. lia.
Qed.

Lemma floor_lg2_double_witness :
  1 <= 20 /\ is_size_t (2 * 20 + 1) /\
  exists k, floor_lg2 20 = Some k /\
            floor_lg2 (2 * 20) = Some (k + 1) /\
            floor_lg2 (2 * 20 + 1) = Some (k + 1).
Proof.
  assert (Hpos : 1 <= 20) by lia.
  assert (H : is_size_t (2 * 20 + 1)) by (unfold is_size_t, size_t_bits; lia).
  split; [exact Hpos|]. split; [exact H|]. exact (floor_lg2_double Hpos H).
Defined.

End Bits.

(** ** The circuit inverter *)

(** What a call can do: return, throw [std::invalid_argument], run into
    undefined behaviour (a pointer outside the target buffer), or, for the
    fuelled loops of this model, run out of fuel. *)
Inductive outcome (E A : Type) : Type :=
| Returns (a : A)
| Throws (e : E)
| Undefined
| Out_of_fuel.
Arguments Returns {E A} a.
Arguments Throws {E A} e.
Arguments Undefined {E A}.
Arguments Out_of_fuel {E A}.

Section CircuitInverter.

(** The circuit model of [stim/circuit/circuit.h] and the gate table
    [GATE_DATA] of [stim/gates/gates.h] are not defined in this header;
    the table is taken as a parameter: the flag word of each gate, the two
    flag masks the inverter tests, and the gate's inverse. *)
Variable GateType : Type.
Variable GateTarget : Type.
Variable Arg : Type.
Variable gate_flags : GateType -> Z.
Variable GATE_IS_UNITARY : Z.
Variable GATE_TARGETS_PAIRS : Z.
Variable gate_inverse : GateType -> GateType.

(** Modelled from the spec: [CircuitInstruction] and [Circuit] of
    [stim/circuit/circuit.h], "an ordered sequence of instructions, each an
    opcode (gate type) plus target qubit/pair list plus optional numeric
    arguments". *)
Record CircuitInstruction : Type := mkInstruction {
  gate_type : GateType;
  args : list Arg;
  targets : list GateTarget
}.

Definition Circuit : Type := list CircuitInstruction.

(** [Circuit::safe_append(gate, targets, args)] is a parameter as well: the
    inverter only calls it. *)
Variable safe_append : Circuit -> GateType -> list GateTarget -> list Arg -> Circuit.

(** The exception of the inverter: ["Not unitary: " + op.str()]. *)
Inductive invalid_argument : Type :=
| Not_unitary (op : CircuitInstruction).

Definition has_flag (g : GateType) (mask : Z) : bool :=
  negb (Z.land (gate_flags g) mask =? 0)%Z.

(** Modelled from the spec: [Circuit::for_each_operation_reverse] of
    [stim/circuit/circuit.h], "traverse instructions in reverse order".
    The callback is run on the last instruction first; an exception
    leaves the traversal. *)
Fixpoint for_each_operation_reverse (St : Type) (c : Circuit)
    (callback : CircuitInstruction -> St -> outcome invalid_argument St)
    (st : St) : outcome invalid_argument St :=
  match c with
  | [] => Returns st
  | op :: rest =>
      match for_each_operation_reverse rest callback st with
      | Returns st' => callback op st'
      | other => other
      end
  end.

(** The pointer pair [{s + lo, s + hi}] into the target buffer. *)
Definition span (ts : list GateTarget) (lo hi : nat) : list GateTarget :=
  firstn (hi - lo) (skipn lo ts).

(** <<
    for (size_t k = op.targets.size(); k > 0; k -= step) {
        inverted.safe_append(inv_gate.id, {s + k - step, s + k}, op.args);
    }
    >>
    When [k < step] the pointer [s + k - step] lies before the buffer: that
    is undefined behaviour, and the model stops there (only then would
    [k -= step] wrap around). *)
Fixpoint append_inverted (fuel : nat) (inv_gate : GateType) (op : CircuitInstruction)
    (step k : nat) (inverted : Circuit) : outcome invalid_argument Circuit :=
  match fuel with
  | O => Out_of_fuel
  | S fuel' =>
      if 0 <? k then
        if k <? step then Undefined
        else append_inverted fuel' inv_gate op step (k - step)
               (safe_append inverted inv_gate (span (targets op) (k - step) k) (args op))
      else Returns inverted
  end.

Definition step_of (g : GateType) : nat :=
  if has_flag g GATE_TARGETS_PAIRS then 2 else 1.

(** The body of the lambda passed to [for_each_operation_reverse]. *)
Definition invert_operation (op : CircuitInstruction) (inverted : Circuit)
    : outcome invalid_argument Circuit :=
  if negb (has_flag (gate_type op) GATE_IS_UNITARY) then Throws (Not_unitary op)
  else
    let step := step_of (gate_type op) in
    let inv_gate := gate_inverse (gate_type op) in
    append_inverted (S (length (targets op))) inv_gate op step
      (length (targets op)) inverted.

(** <<
    inline Circuit unitary_circuit_inverse(const Circuit &unitary_circuit) {
        Circuit inverted;
        unitary_circuit.for_each_operation_reverse([&](...) { ... });
        return inverted;
    }
    >> *)
Definition unitary_circuit_inverse (unitary_circuit : Circuit)
    : outcome invalid_argument Circuit :=
  for_each_operation_reverse unitary_circuit invert_operation [].

(** *** What the specification says the inverter emits *)

(** The target list cut into qubit pairs, or into single targets. *)
Fixpoint target_pairs (ts : list GateTarget) : list (list GateTarget) :=
  match ts with
  | a :: b :: rest => [a; b] :: target_pairs rest
  | _ => []
  end.

Definition target_groups (g : GateType) (ts : list GateTarget) : list (list GateTarget) :=
  if has_flag g GATE_TARGETS_PAIRS then target_pairs ts
  else map (fun t => [t]) ts.

(** One [safe_append] call: gate, targets, arguments. *)
Definition emission : Type := (GateType * list GateTarget * list Arg)%type.

Definition inverted_emissions (op : CircuitInstruction) : list emission :=
  map (fun grp => (gate_inverse (gate_type op), grp, args op))
      (rev (target_groups (gate_type op) (targets op))).

Definition emit (inverted : Circuit) (e : emission) : Circuit :=
  let '(g, ts, a) := e in safe_append inverted g ts a.

Definition emit_all (es : list emission) (inverted : Circuit) : Circuit :=
  fold_left emit es inverted.

Definition is_unitary (op : CircuitInstruction) : Prop :=
  has_flag (gate_type op) GATE_IS_UNITARY = true.

(** The invariant [safe_append] checks on every instruction of a circuit:
    a gate that targets pairs has an even number of targets. *)
Definition well_formed (op : CircuitInstruction) : Prop :=
  has_flag (gate_type op) GATE_TARGETS_PAIRS = true ->
  Nat.even (length (targets op)) = true.

(** *** The loop *)

Definition group_at (ts : list GateTarget) (step i : nat) : list GateTarget :=
  span ts (i * step) (i * step + step).

Lemma append_inverted_groups (g : GateType) (op : CircuitInstruction) (step : nat) :
  0 < step ->
  forall m fuel inverted,
    m < fuel ->
    append_inverted fuel g op step (m * step) inverted =
    Returns (emit_all
               (map (fun i => (g, group_at (targets op) step i, args op)) (rev (seq 0 m)))
               inverted).
Proof.
  intros Hstep. induction m as [|m IH]; intros fuel inverted Hf.
  - destruct fuel; [lia|]. reflexivity.
  - destruct fuel as [|fuel]; [lia|].
    cbn [append_inverted].
    assert (H0 : (0 <? S m * step) = true) by (apply Nat.ltb_lt; nia).
    assert (H1 : (S m * step <? step) = false) by (apply Nat.ltb_ge; nia).
    rewrite H0, H1.
    replace (S m * step - step) with (m * step) by nia.
    rewrite IH by lia.
    rewrite seq_S, rev_app_distr. cbn [rev app map emit_all fold_left emit].
    unfold group_at. now replace (S m * step) with (m * step + step) by nia.
Qed.

Lemma skipn_target_pairs (ts : list GateTarget) :
  forall m, 2 * m <= length ts ->
    map (group_at ts 2) (seq 0 m) = target_pairs (firstn (2 * m) ts).
Proof.
  assert (G : forall m l, 2 * m <= length l ->
              map (fun i => span l (i * 2) (i * 2 + 2)) (seq 0 m)
              = target_pairs (firstn (2 * m) l)).
  { induction m as [|m IH]; intros l Hl; [reflexivity|].
    destruct l as [|a [|b l]]; cbn [length] in Hl; try lia.
    replace (2 * S m) with (S (S (2 * m))) by lia.
    cbn [firstn target_pairs seq map].
    f_equal.
    rewrite <- IH by lia. rewrite <- seq_shift, map_map.
    apply map_ext. intros i. unfold span.
    replace (S i * 2) with (S (S (i * 2))) by lia.
    cbn [skipn]. f_equal; lia. }
  intros m Hm. now apply G.
Qed.

Lemma skipn_target_singles (ts : list GateTarget) :
  forall m, m <= length ts ->
    map (group_at ts 1) (seq 0 m) = map (fun t => [t]) (firstn m ts).
Proof.
  assert (G : forall m l, m <= length l ->
              map (fun i => span l (i * 1) (i * 1 + 1)) (seq 0 m)
              = map (fun t => [t]) (firstn m l)).
  { induction m as [|m IH]; intros l Hl; [reflexivity|].
    destruct l as [|a l]; cbn [length] in Hl; try lia.
    cbn [firstn seq map]. f_equal.
    rewrite <- IH by lia. rewrite <- seq_shift, map_map.
    apply map_ext. intros i. unfold span.
    replace (S i * 1) with (S (i * 1)) by lia.
    cbn [skipn]. f_equal; lia. }
  intros m Hm. now apply G.
Qed.

Lemma target_pairs_concat (ts : list GateTarget) :
  Nat.even (length ts) = true ->
  concat (target_pairs ts) = ts /\
  Forall (fun grp => length grp = 2) (target_pairs ts).
Proof.
  assert (G : forall n l, length l <= n -> Nat.even (length l) = true ->
              concat (target_pairs l) = l /\
              Forall (fun grp => length grp = 2) (target_pairs l)).
  { induction n as [|n IH]; intros l Hn He.
    - destruct l; [split; [reflexivity|constructor] | cbn [length] in Hn; lia].
    - destruct l as [|a [|b l]]; [split; [reflexivity|constructor] | discriminate |].
      cbn [length] in Hn, He. destruct (IH l) as [Hc Hf]; [lia|exact He|].
      cbn [target_pairs concat app]. split; [now rewrite Hc | now constructor]. }
  intros He. now apply (G (length ts)).
Qed.

Lemma target_groups_concat (op : CircuitInstruction) :
  well_formed op ->
  concat (target_groups (gate_type op) (targets op)) = targets op /\
  Forall (fun grp => length grp = step_of (gate_type op))
         (target_groups (gate_type op) (targets op)).
Proof.
  unfold well_formed, target_groups, step_of. intros Hwf.
  destruct (has_flag (gate_type op) GATE_TARGETS_PAIRS).
  - now apply target_pairs_concat, Hwf.
  - split.
    + induction (targets op) as [|t l IH]; [reflexivity|]. cbn. now rewrite IH.
    + apply Forall_forall. intros grp Hin. apply in_map_iff in Hin.
      destruct Hin as [t [<- _]]. reflexivity.
Qed.

Lemma invert_operation_emits (op : CircuitInstruction) (inverted : Circuit) :
  is_unitary op -> well_formed op ->
  invert_operation op inverted = Returns (emit_all (inverted_emissions op) inverted).
Proof.
  unfold is_unitary, well_formed, invert_operation, inverted_emissions,
    target_groups, step_of.
  intros Hu Hwf. rewrite Hu. cbn [negb].
  destruct (has_flag (gate_type op) GATE_TARGETS_PAIRS) eqn:Hp.
  - specialize (Hwf eq_refl).
    apply Nat.even_spec in Hwf. destruct Hwf as [m Hm].
    replace (length (targets op)) with (m * 2) at 2 by lia.
    rewrite append_inverted_groups by lia.
    do 2 f_equal.
    assert (E : target_pairs (targets op) = map (group_at (targets op) 2) (seq 0 m)).
    { rewrite skipn_target_pairs by lia. now rewrite <- Hm, firstn_all. }
    now rewrite E, <- map_rev, map_map.
  - replace (length (targets op)) with (length (targets op) * 1) at 2 by lia.
    rewrite append_inverted_groups by lia.
    do 2 f_equal.
    assert (E : map (fun t => [t]) (targets op)
                = map (group_at (targets op) 1) (seq 0 (length (targets op)))).
    { rewrite skipn_target_singles by lia. now rewrite firstn_all. }
    now rewrite E, <- map_rev, map_map.
Qed.

(** *** The traversal *)

Lemma for_each_operation_reverse_app (St : Type) (c1 c2 : Circuit) callback (st : St) :
  for_each_operation_reverse (c1 ++ c2) callback st =
  match for_each_operation_reverse c2 callback st with
  | Returns st' => for_each_operation_reverse c1 callback st'
  | other => other
  end.
Proof.
  induction c1 as [|op c1 IH]; cbn [app for_each_operation_reverse].
  - now destruct (for_each_operation_reverse c2 callback st).
  - rewrite IH. now destruct (for_each_operation_reverse c2 callback st).
Qed.

Lemma for_each_operation_reverse_emits (c : Circuit) :
  Forall is_unitary c -> Forall well_formed c ->
  forall inverted,
    for_each_operation_reverse c invert_operation inverted =
    Returns (emit_all (flat_map inverted_emissions (rev c)) inverted).
Proof.
  induction c as [|op c IH]; intros Hu Hwf inverted; [reflexivity|].
  inversion Hu as [|? ? Hu1 Hu2]; inversion Hwf as [|? ? Hw1 Hw2]; subst.
  cbn [for_each_operation_reverse rev].
  rewrite IH by assumption.
  rewrite invert_operation_emits by assumption.
  rewrite flat_map_app. cbn [flat_map]. rewrite app_nil_r.
  unfold emit_all. now rewrite fold_left_app.
Qed.

Lemma last_not_unitary (c : Circuit) :
  Exists (fun op => ~ is_unitary op) c ->
  exists before op after,
    c = before ++ op :: after /\ ~ is_unitary op /\ Forall is_unitary after.
Proof.
  induction c as [|op c IH]; intros Hex; [inversion Hex|].
  destruct (Exists_dec (fun op => ~ is_unitary op) c) as [Hin|Hnot].
  - intros o. unfold is_unitary.
    destruct (has_flag (gate_type o) GATE_IS_UNITARY); [right|left]; congruence.
  - destruct (IH Hin) as (before & o & after & -> & Hn & Ha).
    exists (op :: before), o, after. auto.
  - inversion Hex as [? ? Hop|? ? Hc]; subst; [|contradiction].
    exists [], op, c. repeat split; auto.
    apply Forall_forall. intros o Ho.
    unfold is_unitary in *.
    destruct (has_flag (gate_type o) GATE_IS_UNITARY) eqn:E; [reflexivity|].
    exfalso. apply Hnot. apply Exists_exists. exists o. split; [exact Ho|congruence].
Qed.

(** C3. On a circuit of unitary gates the inverter visits the instructions
    last to first and, for each, calls [safe_append] with the inverse gate of
    the gate table once per target group, the groups taken last to first: the
    qubit pairs of a pair gate come out in reverse order, each pair with its
    two targets in their original order (the groups of an instruction, put end
    to end, are its target list). *)
Theorem unitary_circuit_inverse_emits (c : Circuit)
    (Hunitary : Forall is_unitary c) (Hwf : Forall well_formed c) :
  unitary_circuit_inverse c
    = Returns (emit_all (flat_map inverted_emissions (rev c)) []) /\
  Forall (fun op =>
            inverted_emissions op
              = map (fun grp => (gate_inverse (gate_type op), grp, args op))
                    (rev (target_groups (gate_type op) (targets op))) /\
            concat (target_groups (gate_type op) (targets op)) = targets op /\
            Forall (fun grp => length grp = step_of (gate_type op))
                   (target_groups (gate_type op) (targets op))) c.
Proof.
  split.
  - unfold unitary_circuit_inverse. now apply for_each_operation_reverse_emits.
  - apply Forall_forall. intros op Hin.
    split; [reflexivity|].
    apply target_groups_concat.
    rewrite Forall_forall in Hwf. now apply Hwf.
Qed.

Lemma for_each_operation_reverse_throws (before after : Circuit)
    (op : CircuitInstruction) (inverted : Circuit) :
  ~ is_unitary op ->
  (forall result,
     for_each_operation_reverse (before ++ op :: after) invert_operation inverted
     <> Returns result) /\
  (Forall is_unitary after -> Forall well_formed after ->
   for_each_operation_reverse (before ++ op :: after) invert_operation inverted
   = Throws (Not_unitary op)).
Proof.
  intros Hn.
  assert (Hop : forall st, invert_operation op st = Throws (Not_unitary op)).
  { intros st. unfold invert_operation. unfold is_unitary in Hn.
    destruct (has_flag (gate_type op) GATE_IS_UNITARY); [congruence|reflexivity]. }
  rewrite for_each_operation_reverse_app. cbn [for_each_operation_reverse].
  split.
  - intros result.
    destruct (for_each_operation_reverse after invert_operation inverted);
      try discriminate.
    rewrite Hop. discriminate.
  - intros Hu Hwf.
    now rewrite for_each_operation_reverse_emits, Hop by assumption.
Qed.

(** C4. On a circuit with an instruction that is not unitary the inverter
    returns no circuit, whole or partial; when the circuit is well formed
    the call throws, and the exception names the last instruction that is
    not unitary, the first one the reverse traversal meets. *)
Theorem unitary_circuit_inverse_throws (c : Circuit)
    (Hnot : Exists (fun op => ~ is_unitary op) c) :
  (forall inverted, unitary_circuit_inverse c <> Returns inverted) /\
  (Forall well_formed c ->
   exists before op after,
     c = before ++ op :: after /\ ~ is_unitary op /\ Forall is_unitary after /\
     unitary_circuit_inverse c = Throws (Not_unitary op)).
Proof.
  destruct (last_not_unitary Hnot) as (before & op & after & -> & Hn & Ha).
  destruct (for_each_operation_reverse_throws before after [] Hn) as [Hnone Hthrow].
  split; [exact Hnone|].
  intros Hwf. exists before, op, after.
  apply Forall_app in Hwf. destruct Hwf as [_ Hwf].
  inversion Hwf as [|? ? _ Hwa]; subst.
  repeat split; auto.
Qed.

(** *** When the inverter returns *)

Lemma append_inverted_odd (g : GateType) (op : CircuitInstruction) :
  forall m fuel inverted,
    m < fuel -> append_inverted fuel g op 2 (2 * m + 1) inverted = Undefined.
Proof.
  induction m as [|m IH]; intros fuel inverted Hf.
  - destruct fuel; [lia|]. reflexivity.
  - destruct fuel as [|fuel]; [lia|].
    cbn [append_inverted].
    assert (H0 : (0 <? 2 * S m + 1) = true) by (apply Nat.ltb_lt; lia).
    assert (H1 : (2 * S m + 1 <? 2) = false) by (apply Nat.ltb_ge; lia).
    rewrite H0, H1.
    replace (2 * S m + 1 - 2) with (2 * m + 1) by lia.
    apply IH. lia.
Qed.

Lemma well_formed_dec (op : CircuitInstruction) :
  {well_formed op} +
  {has_flag (gate_type op) GATE_TARGETS_PAIRS = true /\
   Nat.even (length (targets op)) = false}.
Proof.
  unfold well_formed.
  destruct (has_flag (gate_type op) GATE_TARGETS_PAIRS);
    [|left; discriminate].
  destruct (Nat.even (length (targets op))); [left|right]; auto.
Qed.

Lemma invert_operation_out_of_bounds (op : CircuitInstruction) (inverted : Circuit) :
  is_unitary op -> ~ well_formed op ->
  invert_operation op inverted = Undefined.
Proof.
  intros Hu Hnw.
  destruct (well_formed_dec op) as [Hw|[Hp He]]; [contradiction|].
  unfold invert_operation, step_of. unfold is_unitary in Hu.
  rewrite Hu, Hp. cbn [negb].
  assert (Ho : Nat.odd (length (targets op)) = true).
  { rewrite <- Nat.negb_even, He. reflexivity. }
  apply Nat.odd_spec in Ho. destruct Ho as [m Hm].
  rewrite Hm at 2. apply append_inverted_odd. lia.
Qed.

Lemma invert_operation_not_unitary (op : CircuitInstruction) (inverted : Circuit) :
  ~ is_unitary op -> invert_operation op inverted = Throws (Not_unitary op).
Proof.
  intros Hn. unfold invert_operation. unfold is_unitary in Hn.
  destruct (has_flag (gate_type op) GATE_IS_UNITARY); [congruence|reflexivity].
Qed.

Lemma is_unitary_dec (op : CircuitInstruction) : {is_unitary op} + {~ is_unitary op}.
Proof.
  unfold is_unitary.
  destruct (has_flag (gate_type op) GATE_IS_UNITARY); [left|right]; congruence.
Qed.

Lemma for_each_operation_reverse_returns (c : Circuit) :
  forall inverted result,
    for_each_operation_reverse c invert_operation inverted = Returns result ->
    Forall is_unitary c /\ Forall well_formed c.
Proof.
  induction c as [|op c IH]; intros inverted result H; [split; constructor|].
  cbn [for_each_operation_reverse] in H.
  destruct (for_each_operation_reverse c invert_operation inverted) as [st| | |] eqn:E;
    try discriminate.
  destruct (IH _ _ E) as [Hu Hw].
  destruct (is_unitary_dec op) as [Hop|Hop].
  2:{ rewrite invert_operation_not_unitary in H by assumption. discriminate. }
  destruct (well_formed_dec op) as [Hwo|[Hp He]].
  - split; now constructor.
  - rewrite invert_operation_out_of_bounds in H; [discriminate|assumption|].
    unfold well_formed. intros Hw'. rewrite (Hw' Hp) in He. discriminate.
Qed.

(** X6. The inverter returns a circuit exactly when every instruction of its
    input is unitary and every pair gate has an even number of targets.  On a
    circuit whose pair gates all have an even number of targets the call is
    defined: it returns, or it throws [Not_unitary] for an instruction of the
    circuit that is not unitary.  (A pair gate with an odd number of targets
    is the other case: there [k -= step] would wrap around and the loop go
    on.) *)
Theorem unitary_circuit_inverse_returns_iff (c : Circuit) :
  ((exists inverted, unitary_circuit_inverse c = Returns inverted) <->
   Forall is_unitary c /\ Forall well_formed c) /\
  (Forall well_formed c ->
   (exists inverted, unitary_circuit_inverse c = Returns inverted) \/
   (exists op,
      In op c /\ ~ is_unitary op /\
      unitary_circuit_inverse c = Throws (Not_unitary op))).
Proof.
  split; [split|].
  - intros [inverted H]. eapply for_each_operation_reverse_returns. exact H.
  - intros [Hu Hw]. eexists. unfold unitary_circuit_inverse.
    now apply for_each_operation_reverse_emits.
  - intros Hw.
    destruct (Forall_Exists_dec is_unitary is_unitary_dec c) as [Hu|Hex].
    + left. eexists. unfold unitary_circuit_inverse.
      now apply for_each_operation_reverse_emits.
    + right. destruct (last_not_unitary Hex) as (before & op & after & -> & Hn & Ha).
      exists op. split; [apply in_elt|]. split; [exact Hn|].
      apply Forall_app in Hw. destruct Hw as [_ Hw].
      inversion Hw as [|? ? _ Hwa]; subst.
      now apply for_each_operation_reverse_throws.
Qed.

(** X7. A unitary pair gate with an odd number of targets makes the loop
    read before the start of the target buffer: when the instructions after
    it are unitary and well formed, the call is undefined behaviour,
    whatever comes before it in the circuit. *)
Theorem unitary_circuit_inverse_out_of_bounds (before after : Circuit)
    (op : CircuitInstruction)
    (Hop : is_unitary op)
    (Hodd : has_flag (gate_type op) GATE_TARGETS_PAIRS = true /\
            Nat.even (length (targets op)) = false)
    (Hunitary : Forall is_unitary after) (Hwf : Forall well_formed after) :
  unitary_circuit_inverse (before ++ op :: after) = Undefined.
Proof.
  unfold unitary_circuit_inverse.
  rewrite for_each_operation_reverse_app. cbn [for_each_operation_reverse].
  rewrite for_each_operation_reverse_emits by assumption.
  rewrite invert_operation_out_of_bounds; [reflexivity|assumption|].
  destruct Hodd as [Hp He]. unfold well_formed. intros Hw.
  rewrite (Hw Hp) in He. discriminate.
Qed.

(** X8. Inverting a concatenation: a failure of the second part decides the
    outcome, whatever the first part is; and when both parts are unitary and
    well formed the result is the inverse of the second part followed by
    what the first part emits. *)
Theorem unitary_circuit_inverse_app (c1 c2 : Circuit) :
  ((forall inverted, unitary_circuit_inverse c2 <> Returns inverted) ->
   unitary_circuit_inverse (c1 ++ c2) = unitary_circuit_inverse c2) /\
  (Forall is_unitary c1 -> Forall well_formed c1 ->
   forall inverted2,
     unitary_circuit_inverse c2 = Returns inverted2 ->
     unitary_circuit_inverse (c1 ++ c2)
     = Returns (emit_all (flat_map inverted_emissions (rev c1)) inverted2)).
Proof.
  unfold unitary_circuit_inverse. rewrite for_each_operation_reverse_app. split.
  - intros Hfail.
    destruct (for_each_operation_reverse c2 invert_operation []) as [st| | |];
      try reflexivity.
    now destruct (Hfail st).
  - intros Hu Hw inverted2 ->. now apply for_each_operation_reverse_emits.
Qed.

(** The targets handed to [safe_append], call after call. *)
Definition emitted_targets (es : list emission) : list GateTarget :=
  flat_map (fun e => snd (fst e)) es.

Lemma emitted_targets_app (es1 es2 : list emission) :
  emitted_targets (es1 ++ es2) = emitted_targets es1 ++ emitted_targets es2.
Proof. apply flat_map_app. Qed.

Lemma concat_rev_permutation (A : Type) (l : list (list A)) :
  Permutation (concat (rev l)) (concat l).
Proof.
  induction l as [|a l IH]; [constructor|].
  cbn [rev concat]. rewrite concat_app. cbn [concat]. rewrite app_nil_r.
  eapply Permutation_trans; [apply Permutation_app_comm|].
  now apply Permutation_app_head.
Qed.

Lemma inverted_emissions_targets (op : CircuitInstruction) :
  emitted_targets (inverted_emissions op)
  = concat (rev (target_groups (gate_type op) (targets op))).
Proof.
  unfold emitted_targets, inverted_emissions.
  rewrite flat_map_concat_map, map_map. cbn [fst snd]. now rewrite map_id.
Qed.

Lemma inverted_emissions_count (op : CircuitInstruction) :
  well_formed op ->
  length (inverted_emissions op) * step_of (gate_type op) = length (targets op).
Proof.
  intros Hw. destruct (target_groups_concat Hw) as [Hc Hl].
  unfold inverted_emissions. rewrite length_map, length_rev.
  rewrite <- Hc at 2. clear Hc.
  induction Hl as [|grp groups Hg _ IH]; [reflexivity|].
  cbn [length concat]. rewrite length_app, <- IH, Hg. lia.
Qed.

(** X9. On a circuit of unitary, well-formed instructions the inverter
    neither drops nor invents a target: the targets it hands to
    [safe_append], all calls together, are the targets of the circuit in
    another order, and an instruction with [m] targets gives [m] calls, or
    [m / 2] calls when its gate targets pairs. *)
Theorem unitary_circuit_inverse_targets (c : Circuit)
    (Hunitary : Forall is_unitary c) (Hwf : Forall well_formed c) :
  unitary_circuit_inverse c
  = Returns (emit_all (flat_map inverted_emissions (rev c)) []) /\
  Permutation (emitted_targets (flat_map inverted_emissions (rev c)))
              (flat_map targets c) /\
  Forall (fun op => length (inverted_emissions op) * step_of (gate_type op)
                    = length (targets op)) c.
Proof.
  split; [now apply for_each_operation_reverse_emits|]. split.
  - clear Hunitary. induction Hwf as [|op c Hop _ IH]; [constructor|].
    cbn [rev flat_map]. rewrite flat_map_app, emitted_targets_app.
    cbn [flat_map]. rewrite app_nil_r.
    eapply Permutation_trans; [apply Permutation_app_comm|].
    apply Permutation_app; [|exact IH].
    rewrite inverted_emissions_targets.
    destruct (target_groups_concat Hop) as [Hc _]. rewrite <- Hc at 2.
    apply concat_rev_permutation.
  - eapply Forall_impl; [|exact Hwf]. intros op. apply inverted_emissions_count.
Qed.

(** A unitary instruction without targets. *)
Definition targets_nothing (op : CircuitInstruction) : bool :=
  has_flag (gate_type op) GATE_IS_UNITARY &&
  match targets op with [] => true | _ :: _ => false end.

(** X10. A unitary instruction with an empty target list leaves no trace:
    the loop body is not entered for it, and the inverter gives the same
    outcome with such instructions removed from the circuit. *)
Theorem unitary_circuit_inverse_skips_empty (c : Circuit) :
  unitary_circuit_inverse (filter (fun op => negb (targets_nothing op)) c)
  = unitary_circuit_inverse c.
Proof.
  unfold unitary_circuit_inverse.
  induction c as [|op c IH]; [reflexivity|].
  cbn [filter for_each_operation_reverse].
  destruct (targets_nothing op) eqn:E; cbn [negb for_each_operation_reverse];
    rewrite IH.
  - destruct (for_each_operation_reverse c invert_operation []) as [st| | |];
      try reflexivity.
    unfold targets_nothing in E. apply andb_true_iff in E. destruct E as [Hu Ht].
    unfold invert_operation. rewrite Hu.
    destruct (targets op); [reflexivity|discriminate].
  - reflexivity.
Qed.

(** *** What a circuit does *)

Section Operation.

(** A circuit acts on some state (a tableau, a state vector, a Pauli frame):
    a gate acts on one target group at a time, an instruction applies its
    gate to its target groups from left to right, a circuit runs its
    instructions from first to last.  Two circuits are operationally
    equivalent when they act alike on every state. *)
Variable State : Type.
Variable apply_gate : GateType -> list GateTarget -> list Arg -> State -> State.

Definition apply_emission (s : State) (e : emission) : State :=
  let '(g, ts, a) := e in apply_gate g ts a s.

Definition forward_emissions (op : CircuitInstruction) : list emission :=
  map (fun grp => (gate_type op, grp, args op))
      (target_groups (gate_type op) (targets op)).

Definition run_instruction (s : State) (op : CircuitInstruction) : State :=
  fold_left apply_emission (forward_emissions op) s.

Definition run_circuit (c : Circuit) (s : State) : State :=
  fold_left run_instruction c s.

Definition operationally_equivalent (c1 c2 : Circuit) : Prop :=
  forall s, run_circuit c1 s = run_circuit c2 s.

(** What the gate table promises about a unitary gate: its inverse is a
    unitary gate on as many targets, and undoes it on either side. *)
Hypothesis inverse_is_unitary : forall g,
  has_flag g GATE_IS_UNITARY = true ->
  has_flag (gate_inverse g) GATE_IS_UNITARY = true.
Hypothesis inverse_targets_pairs : forall g,
  has_flag g GATE_IS_UNITARY = true ->
  has_flag (gate_inverse g) GATE_TARGETS_PAIRS = has_flag g GATE_TARGETS_PAIRS.
Hypothesis inverse_undoes : forall g ts a s,
  has_flag g GATE_IS_UNITARY = true -> length ts = step_of g ->
  apply_gate (gate_inverse g) ts a (apply_gate g ts a s) = s.
Hypothesis inverse_undone : forall g ts a s,
  has_flag g GATE_IS_UNITARY = true -> length ts = step_of g ->
  apply_gate g ts a (apply_gate (gate_inverse g) ts a s) = s.

(** What [safe_append] promises when it is handed one target group: the new
    circuit does what the old one did and then applies the gate, and it is
    again a well-formed circuit, of unitary gates if the old one was and the
    gate is. *)
Hypothesis safe_append_runs : forall c g ts a s,
  Forall well_formed c -> length ts = step_of g ->
  run_circuit (safe_append c g ts a) s = apply_gate g ts a (run_circuit c s).
Hypothesis safe_append_well_formed : forall c g ts a,
  Forall well_formed c -> length ts = step_of g ->
  Forall well_formed (safe_append c g ts a).
Hypothesis safe_append_unitary : forall c g ts a,
  Forall is_unitary c -> has_flag g GATE_IS_UNITARY = true ->
  Forall is_unitary (safe_append c g ts a).

(** An emission the hypotheses speak about. *)
Definition sound_emission (e : emission) : Prop :=
  let '(g, ts, _) := e in
  has_flag g GATE_IS_UNITARY = true /\ length ts = step_of g.

Definition invert_emission (e : emission) : emission :=
  let '(g, ts, a) := e in (gate_inverse g, ts, a).

Lemma run_circuit_emissions (c : Circuit) (s : State) :
  run_circuit c s = fold_left apply_emission (flat_map forward_emissions c) s.
Proof.
  unfold run_circuit. revert s.
  induction c as [|op c IH]; intros s; [reflexivity|].
  cbn [fold_left flat_map]. now rewrite fold_left_app, IH.
Qed.

Lemma forward_emissions_sound (c : Circuit) :
  Forall is_unitary c -> Forall well_formed c ->
  Forall sound_emission (flat_map forward_emissions c).
Proof.
  intros Hu Hwf. apply Forall_forall. intros [[g ts] a] Hin.
  apply in_flat_map in Hin. destruct Hin as (op & Hop & Hin).
  rewrite Forall_forall in Hu, Hwf.
  unfold forward_emissions in Hin. apply in_map_iff in Hin.
  destruct Hin as (grp & E & Hgrp). inversion E; subst.
  split; [now apply Hu|].
  destruct (target_groups_concat (Hwf op Hop)) as [_ Hlen].
  rewrite Forall_forall in Hlen. now apply Hlen.
Qed.

Lemma inverted_emissions_rev (c : Circuit) :
  flat_map inverted_emissions (rev c)
  = rev (map invert_emission (flat_map forward_emissions c)).
Proof.
  induction c as [|op c IH]; [reflexivity|].
  cbn [rev flat_map]. rewrite flat_map_app, map_app, rev_app_distr, IH.
  cbn [flat_map]. rewrite app_nil_r. f_equal.
  unfold inverted_emissions, forward_emissions.
  now rewrite map_map, <- map_rev.
Qed.

Lemma invert_emission_sound (es : list emission) :
  Forall sound_emission es -> Forall sound_emission (rev (map invert_emission es)).
Proof.
  intros H. apply Forall_rev. apply Forall_forall. intros e Hin.
  apply in_map_iff in Hin. destruct Hin as ([[g ts] a] & <- & Hin).
  rewrite Forall_forall in H. destruct (H _ Hin) as [Hu Hlen].
  cbn. split; [now apply inverse_is_unitary|].
  unfold step_of in *. now rewrite inverse_targets_pairs.
Qed.

(** The circuit built by a run of emissions. *)
Lemma emit_all_sound (es : list emission) :
  Forall sound_emission es ->
  forall inverted,
    Forall well_formed inverted ->
    Forall well_formed (emit_all es inverted) /\
    (Forall is_unitary inverted -> Forall is_unitary (emit_all es inverted)) /\
    forall s, run_circuit (emit_all es inverted) s
              = fold_left apply_emission es (run_circuit inverted s).
Proof.
  induction es as [|[[g ts] a] es IH]; intros Hs inverted Hwf.
  - repeat split; auto.
  - inversion Hs as [|? ? He Hs']; subst. cbn in He. destruct He as [Hu Hlen].
    cbn [emit_all fold_left emit].
    destruct (IH Hs' (safe_append inverted g ts a)) as (Hw & Hun & Hrun).
    { now apply safe_append_well_formed. }
    split; [exact Hw|]. split.
    + intros Hui. apply Hun. now apply safe_append_unitary.
    + intros s. cbn [emit_all] in Hrun. rewrite Hrun.
      now rewrite safe_append_runs.
Qed.

Lemma apply_inverted_undoes (es : list emission) :
  Forall sound_emission es ->
  forall s,
    fold_left apply_emission (rev (map invert_emission es))
      (fold_left apply_emission es s) = s.
Proof.
  induction es as [|[[g ts] a] es IH] using rev_ind; intros Hs s; [reflexivity|].
  apply Forall_app in Hs. destruct Hs as [Hs He].
  inversion He as [|? ? He' _]; subst. cbn in He'. destruct He' as [Hu Hlen].
  rewrite map_app, rev_app_distr, !fold_left_app.
  cbn [map rev app fold_left apply_emission invert_emission].
  now rewrite inverse_undoes, IH.
Qed.

Lemma apply_inverted_undone (es : list emission) :
  Forall sound_emission es ->
  forall s,
    fold_left apply_emission es
      (fold_left apply_emission (rev (map invert_emission es)) s) = s.
Proof.
  induction es as [|[[g ts] a] es IH]; intros Hs s; [reflexivity|].
  inversion Hs as [|? ? He Hs']; subst. cbn in He. destruct He as [Hu Hlen].
  cbn [map rev]. rewrite fold_left_app.
  cbn [fold_left apply_emission invert_emission].
  now rewrite inverse_undone, IH.
Qed.

(** The inverter returns, on a circuit of unitary gates, a circuit of
    unitary gates that undoes it on either side. *)
Lemma unitary_circuit_inverse_inverts (c : Circuit) :
  Forall is_unitary c -> Forall well_formed c ->
  exists inverted,
    unitary_circuit_inverse c = Returns inverted /\
    Forall is_unitary inverted /\ Forall well_formed inverted /\
    (forall s, run_circuit inverted (run_circuit c s) = s) /\
    (forall s, run_circuit c (run_circuit inverted s) = s).
Proof.
  intros Hu Hwf.
  pose proof (for_each_operation_reverse_emits Hu Hwf []) as E.
  eexists. split; [exact E|].
  pose proof (forward_emissions_sound Hu Hwf) as Hs.
  rewrite inverted_emissions_rev.
  destruct (@emit_all_sound _ (invert_emission_sound Hs) [] (Forall_nil _))
    as (Hw & Hun & Hrun).
  split; [apply Hun; constructor|]. split; [exact Hw|].
  split; intros s; rewrite Hrun; cbn [run_circuit fold_left].
  - rewrite run_circuit_emissions. now apply apply_inverted_undoes.
  - rewrite run_circuit_emissions. now apply apply_inverted_undone.
Qed.

(** C9. Inverting a circuit of unitary gates twice succeeds both times and
    yields a circuit that acts as the first one does on every state. *)
Theorem unitary_circuit_inverse_involution (c : Circuit)
    (Hunitary : Forall is_unitary c) (Hwf : Forall well_formed c) :
  exists inverted twice,
    unitary_circuit_inverse c = Returns inverted /\
    unitary_circuit_inverse inverted = Returns twice /\
    operationally_equivalent twice c.
Proof.
  destruct (unitary_circuit_inverse_inverts Hunitary Hwf)
    as (inverted & E1 & Hu1 & Hw1 & Hl1 & Hr1).
  destruct (unitary_circuit_inverse_inverts Hu1 Hw1)
    as (twice & E2 & _ & _ & Hl2 & _).
  exists inverted, twice. repeat split; try assumption.
  intros s. rewrite <- (Hl1 s) at 1. apply Hl2.
Qed.

(** *** More about what the inverse does *)

Lemma inverse_emissions_sound (c : Circuit) :
  Forall is_unitary c -> Forall well_formed c ->
  Forall sound_emission (flat_map inverted_emissions (rev c)).
Proof.
  intros Hu Hw. rewrite inverted_emissions_rev.
  apply invert_emission_sound. now apply forward_emissions_sound.
Qed.

Lemma run_inverse (c : Circuit) :
  Forall is_unitary c -> Forall well_formed c ->
  forall s,
    run_circuit (emit_all (flat_map inverted_emissions (rev c)) []) s
    = fold_left apply_emission (flat_map inverted_emissions (rev c)) s.
Proof.
  intros Hu Hw s.
  destruct (@emit_all_sound _ (inverse_emissions_sound Hu Hw) [] (Forall_nil _))
    as (_ & _ & Hrun).
  now rewrite Hrun.
Qed.

(** X11. On a circuit of unitary, well-formed instructions the inverter
    returns a circuit that undoes it on either side: running the circuit and
    then its inverse, or the inverse and then the circuit, gives back every
    state. *)
Theorem unitary_circuit_inverse_is_inverse (c : Circuit)
    (Hunitary : Forall is_unitary c) (Hwf : Forall well_formed c) :
  exists inverted,
    unitary_circuit_inverse c = Returns inverted /\
    (forall s, run_circuit inverted (run_circuit c s) = s) /\
    (forall s, run_circuit c (run_circuit inverted s) = s).
Proof.
  exists (emit_all (flat_map inverted_emissions (rev c)) []).
  split; [now apply for_each_operation_reverse_emits|].
  pose proof (forward_emissions_sound Hunitary Hwf) as Hs.
  split; intros s; rewrite run_inverse by assumption;
    rewrite inverted_emissions_rev, run_circuit_emissions.
  - now apply apply_inverted_undoes.
  - now apply apply_inverted_undone.
Qed.

Lemma emit_all_closed (es : list emission) :
  Forall sound_emission es ->
  forall inverted,
    Forall is_unitary inverted -> Forall well_formed inverted ->
    Forall is_unitary (emit_all es inverted) /\
    Forall well_formed (emit_all es inverted).
Proof.
  induction es as [|[[g ts] a] es IH]; intros Hs inverted Hu Hw; [auto|].
  inversion Hs as [|? ? He Hs']; subst. cbn in He. destruct He as [Hg Hlen].
  cbn [emit_all fold_left emit]. apply IH; auto.
Qed.

(** X12. The inverse of a circuit of unitary, well-formed instructions is
    again a circuit of unitary, well-formed instructions: it can be handed
    back to the inverter, which returns on it. *)
Theorem unitary_circuit_inverse_closed (c : Circuit)
    (Hunitary : Forall is_unitary c) (Hwf : Forall well_formed c) :
  exists inverted,
    unitary_circuit_inverse c = Returns inverted /\
    Forall is_unitary inverted /\ Forall well_formed inverted /\
    exists twice, unitary_circuit_inverse inverted = Returns twice.
Proof.
  exists (emit_all (flat_map inverted_emissions (rev c)) []).
  split; [now apply for_each_operation_reverse_emits|].
  destruct (@emit_all_closed _ (inverse_emissions_sound Hunitary Hwf) []
              (Forall_nil _) (Forall_nil _)) as [Hu Hw].
  split; [exact Hu|]. split; [exact Hw|].
  eexists. unfold unitary_circuit_inverse.
  now apply for_each_operation_reverse_emits.
Qed.

(** X13. Inversion respects operational equivalence: two circuits of
    unitary, well-formed instructions that act alike on every state have
    inverses that act alike on every state. *)
Theorem unitary_circuit_inverse_equivalent (c1 c2 : Circuit)
    (Hunitary1 : Forall is_unitary c1) (Hwf1 : Forall well_formed c1)
    (Hunitary2 : Forall is_unitary c2) (Hwf2 : Forall well_formed c2)
    (Hequiv : operationally_equivalent c1 c2) :
  exists inverted1 inverted2,
    unitary_circuit_inverse c1 = Returns inverted1 /\
    unitary_circuit_inverse c2 = Returns inverted2 /\
    operationally_equivalent inverted1 inverted2.
Proof.
  destruct (unitary_circuit_inverse_inverts Hunitary1 Hwf1)
    as (i1 & E1 & _ & _ & Hl1 & _).
  destruct (unitary_circuit_inverse_inverts Hunitary2 Hwf2)
    as (i2 & E2 & _ & _ & _ & Hr2).
  exists i1, i2. repeat split; try assumption.
  intros s. rewrite <- (Hr2 s) at 1. rewrite <- (Hequiv (run_circuit i2 s)).
  apply Hl1.
Qed.

(** X14. The inverse of a concatenation acts as the inverse of the second
    part followed by the inverse of the first part. *)
Theorem unitary_circuit_inverse_app_runs (c1 c2 : Circuit)
    (Hunitary1 : Forall is_unitary c1) (Hwf1 : Forall well_formed c1)
    (Hunitary2 : Forall is_unitary c2) (Hwf2 : Forall well_formed c2) :
  exists inverted inverted1 inverted2,
    unitary_circuit_inverse (c1 ++ c2) = Returns inverted /\
    unitary_circuit_inverse c1 = Returns inverted1 /\
    unitary_circuit_inverse c2 = Returns inverted2 /\
    forall s, run_circuit inverted s = run_circuit inverted1 (run_circuit inverted2 s).
Proof.
  assert (Hu : Forall is_unitary (c1 ++ c2)) by now apply Forall_app.
  assert (Hw : Forall well_formed (c1 ++ c2)) by now apply Forall_app.
  do 3 eexists.
  split; [now apply for_each_operation_reverse_emits|].
  split; [now apply for_each_operation_reverse_emits|].
  split; [now apply for_each_operation_reverse_emits|].
  intros s. rewrite !run_inverse by assumption.
  now rewrite rev_app_distr, flat_map_app, fold_left_app.
Qed.

End Operation.

End CircuitInverter.

(** ** Pauli strings and tableaus *)

Module Pauli.

(** Modelled from the spec: [PauliString] of
    [stim/stabilizers/pauli_string.h], "a sign times a tensor product of
    single-qubit Pauli operators (I, X, Y, Z) over n qubits", each operator
    held as its X bit and its Z bit. *)
Definition Pauli : Type := (bool * bool)%type.

Definition pauli_I : Pauli := (false, false).
Definition pauli_X : Pauli := (true, false).
Definition pauli_Y : Pauli := (true, true).
Definition pauli_Z : Pauli := (false, true).

Record PauliString : Type := mkPauliString {
  sign : bool;            (* true: the string is negated *)
  paulis : list Pauli
}.

Definition pauli_at (p : PauliString) (q : nat) : Pauli := nth q (paulis p) pauli_I.

(** The operator on qubit [q] replaced by its image under [f]; a qubit
    outside the string is left alone. *)
Fixpoint map_at (q : nat) (f : Pauli -> Pauli) (l : list Pauli) : list Pauli :=
  match l, q with
  | [], _ => []
  | p :: l', O => f p :: l'
  | p :: l', S q' => p :: map_at q' f l'
  end.

(** Modelled from the spec: the action of the gates H, S, S_DAG and CX on a
    Pauli string by conjugation, the "already-correct primitives" of the gate
    table ([GATE_DATA[g].tableau()]):
    H swaps X and Z and negates Y; S sends X to Y and Y to -X; S_DAG sends X
    to -Y and Y to X; CX copies X from control to target and Z from target
    to control.  A gate on a qubit the string does not have leaves the
    string alone. *)
Definition conj1 (image : Pauli -> Pauli) (negated : Pauli -> bool)
    (q : nat) (p : PauliString) : PauliString :=
  {| sign := xorb (sign p) (negated (pauli_at p q));
     paulis := map_at q image (paulis p) |}.

Definition H_image (u : Pauli) : Pauli := let '(x, z) := u in (z, x).
Definition H_negated (u : Pauli) : bool := let '(x, z) := u in x && z.
Definition S_image (u : Pauli) : Pauli := let '(x, z) := u in (x, xorb z x).
Definition S_negated (u : Pauli) : bool := let '(x, z) := u in x && z.
Definition S_DAG_negated (u : Pauli) : bool := let '(x, z) := u in x && negb z.

Definition conj_H : nat -> PauliString -> PauliString := conj1 H_image H_negated.
Definition conj_S : nat -> PauliString -> PauliString := conj1 S_image S_negated.
Definition conj_S_DAG : nat -> PauliString -> PauliString := conj1 S_image S_DAG_negated.

Definition conj_CX (c t : nat) (p : PauliString) : PauliString :=
  if (c =? t) || negb (c <? length (paulis p)) || negb (t <? length (paulis p))
  then p
  else
    let '(xc, zc) := pauli_at p c in
    let '(xt, zt) := pauli_at p t in
    {| sign := xorb (sign p) (xc && zt && negb (xorb xt zc));
       paulis := map_at t (fun u => (xorb (fst u) xc, snd u))
                   (map_at c (fun u => (fst u, xorb (snd u) zt)) (paulis p)) |}.

(** *** Operators at a qubit *)

Lemma map_at_length q f l : length (map_at q f l) = length l.
Proof.
  revert q. induction l as [|p l IH]; intros [|q]; cbn; auto.
Qed.

Lemma nth_map_at q f l i :
  nth i (map_at q f l) pauli_I
  = if (i =? q) && (q <? length l) then f (nth q l pauli_I) else nth i l pauli_I.
Proof.
  revert q i. induction l as [|p l IH]; intros q i.
  - cbn. destruct q, i; cbn; try reflexivity; now rewrite andb_false_r.
  - destruct q as [|q], i as [|i]; cbn [map_at nth length]; try reflexivity.
    rewrite IH. reflexivity.
Qed.

Lemma nth_map_at_same q f l :
  q < length l -> nth q (map_at q f l) pauli_I = f (nth q l pauli_I).
Proof.
  intros H. rewrite nth_map_at, Nat.eqb_refl.
  apply Nat.ltb_lt in H. now rewrite H.
Qed.

Lemma nth_map_at_other q f l i :
  i <> q -> nth i (map_at q f l) pauli_I = nth i l pauli_I.
Proof.
  intros H. rewrite nth_map_at. apply Nat.eqb_neq in H. now rewrite H.
Qed.

Lemma map_at_outside q f l : length l <= q -> map_at q f l = l.
Proof.
  revert q. induction l as [|p l IH]; intros q H; [now destruct q|].
  destruct q as [|q]; cbn in *; [lia|]. f_equal. apply IH. lia.
Qed.

Lemma map_at_map_at q f g l : map_at q f (map_at q g l) = map_at q (fun p => f (g p)) l.
Proof.
  revert q. induction l as [|p l IH]; intros [|q]; cbn; auto. now rewrite IH.
Qed.

Lemma map_at_ext q f g l :
  (forall p, f p = g p) -> map_at q f l = map_at q g l.
Proof.
  intros H. revert q. induction l as [|p l IH]; intros [|q]; cbn; auto.
  - now rewrite H.
  - now rewrite IH.
Qed.

Lemma map_at_id q l : map_at q (fun p => p) l = l.
Proof.
  revert q. induction l as [|p l IH]; intros [|q]; cbn; auto. now rewrite IH.
Qed.

Lemma map_at_comm q1 q2 f g l :
  q1 <> q2 -> map_at q1 f (map_at q2 g l) = map_at q2 g (map_at q1 f l).
Proof.
  revert q1 q2. induction l as [|p l IH]; intros [|q1] [|q2] H; cbn; auto; try lia.
  f_equal. apply IH. lia.
Qed.

Lemma nth_outside (l : list Pauli) q : length l <= q -> nth q l pauli_I = pauli_I.
Proof. intros H. now apply nth_overflow. Qed.

Lemma PauliString_eq (p1 p2 : PauliString) :
  sign p1 = sign p2 -> paulis p1 = paulis p2 -> p1 = p2.
Proof. destruct p1, p2; cbn; intros; subst; reflexivity. Qed.

Lemma pauli_at_outside (p : PauliString) q :
  length (paulis p) <= q -> pauli_at p q = pauli_I.
Proof. intros H. now apply nth_outside. Qed.

Lemma paulis_ext (l1 l2 : list Pauli) :
  length l1 = length l2 ->
  (forall i, i < length l1 -> nth i l1 pauli_I = nth i l2 pauli_I) ->
  l1 = l2.
Proof. intros Hl Hn. now apply nth_ext with (d := pauli_I) (d' := pauli_I). Qed.

Lemma conj1_length image negated q p :
  length (paulis (conj1 image negated q p)) = length (paulis p).
Proof. apply map_at_length. Qed.

Lemma pauli_at_conj1 image negated q p i :
  image pauli_I = pauli_I ->
  pauli_at (conj1 image negated q p) i
  = if i =? q then image (pauli_at p q) else pauli_at p i.
Proof.
  intros HI. unfold pauli_at, conj1. cbn [paulis].
  rewrite nth_map_at.
  destruct (Nat.eqb_spec i q) as [->|]; cbn [andb]; [|reflexivity].
  destruct (Nat.ltb_spec q (length (paulis p))); [reflexivity|].
  now rewrite nth_outside, HI.
Qed.

Lemma conj_CX_length c t p : length (paulis (conj_CX c t p)) = length (paulis p).
Proof.
  unfold conj_CX.
  destruct ((c =? t) || negb (c <? length (paulis p)) || negb (t <? length (paulis p)));
    [reflexivity|].
  destruct (pauli_at p c), (pauli_at p t). cbn [paulis].
  now rewrite !map_at_length.
Qed.

Lemma conj_CX_inside c t p :
  c <> t -> c < length (paulis p) -> t < length (paulis p) ->
  conj_CX c t p =
  {| sign := xorb (sign p)
               (fst (pauli_at p c) && snd (pauli_at p t)
                && negb (xorb (fst (pauli_at p t)) (snd (pauli_at p c))));
     paulis := map_at t (fun u => (xorb (fst u) (fst (pauli_at p c)), snd u))
                 (map_at c (fun u => (fst u, xorb (snd u) (snd (pauli_at p t))))
                    (paulis p)) |}.
Proof.
  intros Hne Hc Ht. unfold conj_CX.
  apply Nat.eqb_neq in Hne. apply Nat.ltb_lt in Hc, Ht.
  rewrite Hne, Hc, Ht. cbn [negb orb].
  now destruct (pauli_at p c), (pauli_at p t).
Qed.

Lemma pauli_at_conj_CX c t p i :
  c <> t -> c < length (paulis p) -> t < length (paulis p) ->
  pauli_at (conj_CX c t p) i
  = if i =? t then (xorb (fst (pauli_at p t)) (fst (pauli_at p c)), snd (pauli_at p t))
    else if i =? c then (fst (pauli_at p c), xorb (snd (pauli_at p c)) (snd (pauli_at p t)))
    else pauli_at p i.
Proof.
  intros Hne Hc Ht. rewrite conj_CX_inside by assumption.
  unfold pauli_at. cbn [paulis].
  rewrite nth_map_at, map_at_length.
  apply Nat.ltb_lt in Ht. rewrite Ht, andb_true_r.
  destruct (Nat.eqb_spec i t) as [->|Hit].
  - rewrite nth_map_at_other by auto. reflexivity.
  - rewrite nth_map_at. apply Nat.ltb_lt in Hc. rewrite Hc, andb_true_r.
    now destruct (Nat.eqb_spec i c) as [->|].
Qed.

(** *** Each gate is undone by its inverse *)

Lemma conj1_undo image negated image' negated' q p :
  image pauli_I = pauli_I -> negated pauli_I = false -> negated' pauli_I = false ->
  (forall u, image' (image u) = u) ->
  (forall u, xorb (negated u) (negated' (image u)) = false) ->
  conj1 image' negated' q (conj1 image negated q p) = p.
Proof.
  intros HI Hn Hn' Him Hneg.
  apply PauliString_eq.
  - unfold conj1 at 1. cbn [sign]. rewrite pauli_at_conj1, Nat.eqb_refl by assumption.
    unfold conj1. cbn [sign]. rewrite xorb_assoc, Hneg. apply xorb_false_r.
  - unfold conj1. cbn [paulis]. rewrite map_at_map_at.
    rewrite map_at_ext with (g := fun u => u); [apply map_at_id|exact Him].
Qed.

Lemma conj_H_involutive q p : conj_H q (conj_H q p) = p.
Proof. apply conj1_undo; try reflexivity; intros [[] []]; reflexivity. Qed.

Lemma conj_S_DAG_S q p : conj_S_DAG q (conj_S q p) = p.
Proof. apply conj1_undo; try reflexivity; intros [[] []]; reflexivity. Qed.

Lemma conj_S_S_DAG q p : conj_S q (conj_S_DAG q p) = p.
Proof. apply conj1_undo; try reflexivity; intros [[] []]; reflexivity. Qed.

Lemma conj_CX_outside c t p :
  c = t \/ length (paulis p) <= c \/ length (paulis p) <= t ->
  conj_CX c t p = p.
Proof.
  intros H. unfold conj_CX.
  destruct (Nat.eqb_spec c t); [reflexivity|].
  destruct (Nat.ltb_spec c (length (paulis p))); [|reflexivity].
  destruct (Nat.ltb_spec t (length (paulis p))); [|reflexivity].
  lia.
Qed.

Lemma conj_CX_involutive c t p : conj_CX c t (conj_CX c t p) = p.
Proof.
  destruct (Nat.eq_dec c t) as [E|Hne].
  { rewrite (@conj_CX_outside c t p) by auto. apply conj_CX_outside; auto. }
  destruct (Nat.ltb_spec c (length (paulis p))) as [Hc|Hc].
  2:{ rewrite (@conj_CX_outside c t p) by auto. apply conj_CX_outside; auto. }
  destruct (Nat.ltb_spec t (length (paulis p))) as [Ht|Ht].
  2:{ rewrite (@conj_CX_outside c t p) by auto. apply conj_CX_outside; auto. }
  assert (Hct : (c =? t) = false) by now apply Nat.eqb_neq.
  pose proof (conj_CX_length c t p) as Hlen.
  assert (Hc' : c < length (paulis (conj_CX c t p))) by now rewrite Hlen.
  assert (Ht' : t < length (paulis (conj_CX c t p))) by now rewrite Hlen.
  pose proof (@pauli_at_conj_CX c t p c Hne Hc Ht) as Pc.
  pose proof (@pauli_at_conj_CX c t p t Hne Hc Ht) as Pt.
  rewrite Nat.eqb_refl in Pt. rewrite Hct, Nat.eqb_refl in Pc.
  apply PauliString_eq.
  - rewrite (@conj_CX_inside c t _ Hne Hc' Ht'). cbn [sign].
    rewrite Pc, Pt. cbn [fst snd].
    rewrite conj_CX_inside by assumption. cbn [sign].
    destruct (pauli_at p c) as [[] []], (pauli_at p t) as [[] []], (sign p); reflexivity.
  - apply paulis_ext; [now rewrite conj_CX_length|].
    intros i _. fold (pauli_at (conj_CX c t (conj_CX c t p)) i). fold (pauli_at p i).
    rewrite (@pauli_at_conj_CX c t _ i Hne Hc' Ht').
    rewrite Pc, Pt. cbn [fst snd].
    destruct (Nat.eqb_spec i t) as [->|]; [|destruct (Nat.eqb_spec i c) as [->|]].
    + destruct (pauli_at p c) as [[] []], (pauli_at p t) as [[] []]; reflexivity.
    + destruct (pauli_at p c) as [[] []], (pauli_at p t) as [[] []]; reflexivity.
    + now rewrite pauli_at_conj_CX, (proj2 (Nat.eqb_neq i t)), (proj2 (Nat.eqb_neq i c)).
Qed.

End Pauli.

(** ** The circuit-to-tableau compiler *)

(** The classes of instruction the compiler tells apart. *)
Inductive GateKind : Type :=
| Unitary_gate
| Noise_channel
| Measurement
| Reset.

Section CircuitToTableau.

(** [circuit_to_tableau] is only declared in this header.  The gate table
    (here: the class of each gate), the tableau type and its algebra
    (the identity tableau, composing an instruction's action onto a tableau)
    and the qubit count of a circuit are parameters. *)
Variable GateType : Type.
Variable GateTarget : Type.
Variable Arg : Type.
Variable Tableau : Type.
Variable gate_kind : GateType -> GateKind.
Variable identity_tableau : nat -> Tableau.
Variable count_qubits : Circuit GateType GateTarget Arg -> nat.
Variable apply_instruction :
  CircuitInstruction GateType GateTarget Arg -> Tableau -> Tableau.

(** The "unsupported instruction" error. *)
Inductive unsupported : Type :=
| Unsupported_instruction (op : CircuitInstruction GateType GateTarget Arg).

(** The ignore-flag that corresponds to a class of instruction, read
    from the three flags of the call; a unitary gate has none. *)
Definition ignore_flag (ignore_noise ignore_measurement ignore_reset : bool)
    (k : GateKind) : option bool :=
  match k with
  | Unitary_gate => None
  | Noise_channel => Some ignore_noise
  | Measurement => Some ignore_measurement
  | Reset => Some ignore_reset
  end.

(** Modelled from the spec: the body of [circuit_to_tableau] in
    [conversions.inl]: "folds instructions left-to-right into an
    initially-identity tableau by composing each gate's action.  Encountering
    a noise/measurement/reset instruction fails with an 'unsupported
    instruction' error unless the corresponding ignore-flag is set, in which
    case that instruction is skipped with no tableau mutation." *)
Definition compile_instruction (ignore_noise ignore_measurement ignore_reset : bool)
    (t : Tableau) (op : CircuitInstruction GateType GateTarget Arg)
    : outcome unsupported Tableau :=
  match ignore_flag ignore_noise ignore_measurement ignore_reset
          (gate_kind (gate_type op)) with
  | None => Returns (apply_instruction op t)
  | Some true => Returns t
  | Some false => Throws (Unsupported_instruction op)
  end.

Fixpoint compile_from (ignore_noise ignore_measurement ignore_reset : bool)
    (t : Tableau) (c : Circuit GateType GateTarget Arg)
    : outcome unsupported Tableau :=
  match c with
  | [] => Returns t
  | op :: rest =>
      match compile_instruction ignore_noise ignore_measurement ignore_reset t op with
      | Returns t' => compile_from ignore_noise ignore_measurement ignore_reset t' rest
      | other => other
      end
  end.

Definition circuit_to_tableau (circuit : Circuit GateType GateTarget Arg)
    (ignore_noise ignore_measurement ignore_reset : bool)
    : outcome unsupported Tableau :=
  compile_from ignore_noise ignore_measurement ignore_reset
    (identity_tableau (count_qubits circuit)) circuit.

(** An instruction the compiler gets past: a unitary gate, or one whose
    ignore-flag is set. *)
Definition accepted (ignore_noise ignore_measurement ignore_reset : bool)
    (op : CircuitInstruction GateType GateTarget Arg) : Prop :=
  ignore_flag ignore_noise ignore_measurement ignore_reset (gate_kind (gate_type op))
  <> Some false.

Lemma compile_from_app ign_n ign_m ign_r t c1 c2 :
  compile_from ign_n ign_m ign_r t (c1 ++ c2) =
  match compile_from ign_n ign_m ign_r t c1 with
  | Returns t' => compile_from ign_n ign_m ign_r t' c2
  | other => other
  end.
Proof.
  revert t. induction c1 as [|op c1 IH]; intros t; [reflexivity|].
  cbn [app compile_from].
  destruct (compile_instruction ign_n ign_m ign_r t op); auto.
Qed.

Lemma compile_from_accepted ign_n ign_m ign_r c :
  Forall (accepted ign_n ign_m ign_r) c ->
  forall t, exists t', compile_from ign_n ign_m ign_r t c = Returns t'.
Proof.
  induction 1 as [|op c Hop _ IH]; intros t; [now exists t|].
  cbn [compile_from]. unfold compile_instruction, accepted in *.
  destruct (ignore_flag ign_n ign_m ign_r (gate_kind (gate_type op))) as [[]|];
    try congruence; apply IH.
Qed.

(** The specification's words, class by class.  An instruction is refused when it
    is a noise channel while [ignore_noise] is false, a measurement while
    [ignore_measurement] is false, or a reset while [ignore_reset] is
    false. *)
Definition refused (ignore_noise ignore_measurement ignore_reset : bool)
    (op : CircuitInstruction GateType GateTarget Arg) : Prop :=
  (gate_kind (gate_type op) = Noise_channel /\ ignore_noise = false) \/
  (gate_kind (gate_type op) = Measurement /\ ignore_measurement = false) \/
  (gate_kind (gate_type op) = Reset /\ ignore_reset = false).

(** It is skipped when it is a noise channel while [ignore_noise] is true,
    a measurement while [ignore_measurement] is true, or a reset while
    [ignore_reset] is true. *)
Definition skipped (ignore_noise ignore_measurement ignore_reset : bool)
    (op : CircuitInstruction GateType GateTarget Arg) : Prop :=
  (gate_kind (gate_type op) = Noise_channel /\ ignore_noise = true) \/
  (gate_kind (gate_type op) = Measurement /\ ignore_measurement = true) \/
  (gate_kind (gate_type op) = Reset /\ ignore_reset = true).

(** An instruction that does not stop the compiler: a unitary gate or a
    skipped instruction. *)
Definition passes (ignore_noise ignore_measurement ignore_reset : bool)
    (op : CircuitInstruction GateType GateTarget Arg) : Prop :=
  gate_kind (gate_type op) = Unitary_gate \/
  skipped ignore_noise ignore_measurement ignore_reset op.

Lemma refused_throws ign_n ign_m ign_r op t :
  refused ign_n ign_m ign_r op ->
  compile_instruction ign_n ign_m ign_r t op = Throws (Unsupported_instruction op).
Proof.
  unfold compile_instruction.
  intros [[-> ->]|[[-> ->]|[-> ->]]]; reflexivity.
Qed.

Lemma skipped_returns ign_n ign_m ign_r op t :
  skipped ign_n ign_m ign_r op ->
  compile_instruction ign_n ign_m ign_r t op = Returns t.
Proof.
  unfold compile_instruction.
  intros [[-> ->]|[[-> ->]|[-> ->]]]; reflexivity.
Qed.

Lemma passes_accepted ign_n ign_m ign_r c :
  Forall (passes ign_n ign_m ign_r) c -> Forall (accepted ign_n ign_m ign_r) c.
Proof.
  apply Forall_impl. intros op. unfold accepted.
  intros [->|[[-> ->]|[[-> ->]|[-> ->]]]]; discriminate.
Qed.

(** C5. Whatever the circuit and the three flags.  An instruction that is a
    noise channel with [ignore_noise] false, a measurement with
    [ignore_measurement] false or a reset with [ignore_reset] false makes
    the call fail: no tableau is returned, whatever comes before it, and when
    everything before it is a unitary gate or a skipped instruction the call
    throws the unsupported-instruction error for this very instruction.  An
    instruction of one of the three classes whose own flag is true returns
    the tableau it was given, and the circuit compiles as if the instruction
    were not there. *)
Theorem circuit_to_tableau_unsupported
    (ignore_noise ignore_measurement ignore_reset : bool)
    (before after : Circuit GateType GateTarget Arg)
    (op : CircuitInstruction GateType GateTarget Arg) :
  (refused ignore_noise ignore_measurement ignore_reset op ->
     (forall t,
        circuit_to_tableau (before ++ op :: after)
          ignore_noise ignore_measurement ignore_reset
        <> Returns t) /\
     (Forall (passes ignore_noise ignore_measurement ignore_reset) before ->
      circuit_to_tableau (before ++ op :: after)
        ignore_noise ignore_measurement ignore_reset
      = Throws (Unsupported_instruction op))) /\
  (skipped ignore_noise ignore_measurement ignore_reset op ->
     forall t,
       compile_instruction ignore_noise ignore_measurement ignore_reset t op
       = Returns t /\
       compile_from ignore_noise ignore_measurement ignore_reset t
         (before ++ op :: after)
       = compile_from ignore_noise ignore_measurement ignore_reset t
           (before ++ after)).
Proof.
  split.
  - intros Hop. unfold circuit_to_tableau. rewrite compile_from_app. split.
    + intros t.
      destruct (compile_from ignore_noise ignore_measurement ignore_reset
                  (identity_tableau (count_qubits (before ++ op :: after))) before);
        try discriminate.
      cbn [compile_from]. rewrite refused_throws by assumption. discriminate.
    + intros Hbefore.
      destruct (compile_from_accepted (passes_accepted Hbefore)
                  (identity_tableau (count_qubits (before ++ op :: after))))
        as [t' ->].
      cbn [compile_from]. now rewrite refused_throws.
  - intros Hop t.
    split; [now apply skipped_returns|].
    rewrite !compile_from_app.
    destruct (compile_from ignore_noise ignore_measurement ignore_reset t before);
      try reflexivity.
    cbn [compile_from]. now rewrite skipped_returns.
Qed.

End CircuitToTableau.

(** ** A gate table *)


Module Stim.
Import Pauli.
Local Open Scope Z_scope.

(** An instance of the gate table the inverter and the compiler take as a
    parameter ([GATE_DATA] itself, of [stim/gates/gates.h], is not among the
    sources): a few gates, enough to have every class of instruction: three
    single-qubit Clifford gates, a two-qubit one, a measurement, a reset and
    a noise channel.  The flag bits are those of this instance. *)
Inductive GateType : Type :=
| Gate_H | Gate_S | Gate_S_DAG | Gate_CX | Gate_M | Gate_R | Gate_X_ERROR.

Definition GATE_IS_UNITARY : Z := Z.shiftl 1 0.
Definition GATE_IS_NOISY : Z := Z.shiftl 1 1.
Definition GATE_PRODUCES_RESULTS : Z := Z.shiftl 1 3.
Definition GATE_TARGETS_PAIRS : Z := Z.shiftl 1 6.
Definition GATE_IS_RESET : Z := Z.shiftl 1 13.

Definition gate_flags (g : GateType) : Z :=
  match g with
  | Gate_H | Gate_S | Gate_S_DAG => GATE_IS_UNITARY
  | Gate_CX => Z.lor GATE_IS_UNITARY GATE_TARGETS_PAIRS
  | Gate_M => GATE_PRODUCES_RESULTS
  | Gate_R => GATE_IS_RESET
  | Gate_X_ERROR => GATE_IS_NOISY
  end.

Definition gate_inverse (g : GateType) : GateType :=
  match g with
  | Gate_S => Gate_S_DAG
  | Gate_S_DAG => Gate_S
  | other => other
  end.

Definition gate_kind (g : GateType) : GateKind :=
  if negb (Z.land (gate_flags g) GATE_IS_NOISY =? 0) then Noise_channel
  else if negb (Z.land (gate_flags g) GATE_PRODUCES_RESULTS =? 0) then Measurement
  else if negb (Z.land (gate_flags g) GATE_IS_RESET =? 0) then Reset
  else Unitary_gate.

(** A target is a qubit index, an argument a rational number. *)
Definition GateTarget : Type := nat.
Definition Arg : Type := QArith_base.Q.

Definition Instruction : Type := CircuitInstruction GateType GateTarget Arg.
Definition StimCircuit : Type := Circuit GateType GateTarget Arg.

Definition instr (g : GateType) (ts : list GateTarget) : Instruction :=
  mkInstruction g [] ts.

(** Modelled from the spec: [Circuit::safe_append] of
    [stim/circuit/circuit.h]: "instructions are appended, never mutated in
    place". *)
Definition safe_append (c : StimCircuit) (g : GateType) (ts : list GateTarget)
    (a : list Arg) : StimCircuit :=
  c ++ [mkInstruction g a ts].

(** The inverter of the header, over this gate table. *)
Definition inverse_of (c : StimCircuit) : outcome (invalid_argument GateType GateTarget Arg) StimCircuit :=
  unitary_circuit_inverse gate_flags GATE_IS_UNITARY GATE_TARGETS_PAIRS
    gate_inverse safe_append c.

(** Modelled from the spec: [Tableau] of [stim/stabilizers/tableau.h], the
    images of the generators X_0 .. X_(n-1) and Z_0 .. Z_(n-1), each a
    signed Pauli string: the rows of the symplectic matrix and the sign
    vector. *)
Record Tableau : Type := mkTableau {
  xs : list PauliString;
  zs : list PauliString
}.

Definition tableau_map (f : PauliString -> PauliString) (t : Tableau) : Tableau :=
  {| xs := map f (xs t); zs := map f (zs t) |}.

(** The action of a gate, applied to one target group, on a Pauli string;
    gates that are not unitary have none. *)
Definition gate_conj (g : GateType) (ts : list GateTarget) : PauliString -> PauliString :=
  match g, ts with
  | Gate_H, [q] => conj_H q
  | Gate_S, [q] => conj_S q
  | Gate_S_DAG, [q] => conj_S_DAG q
  | Gate_CX, [c; t] => conj_CX c t
  | _, _ => fun p => p
  end.

(** Composing a gate onto a tableau conjugates every row. *)
Definition apply_gate (g : GateType) (ts : list GateTarget) (a : list Arg)
    (t : Tableau) : Tableau :=
  tableau_map (gate_conj g ts) t.

Definition run (c : StimCircuit) (t : Tableau) : Tableau :=
  run_circuit gate_flags GATE_TARGETS_PAIRS apply_gate c t.

Example inverse_of_example :
  inverse_of [instr Gate_CX [0; 1; 2; 3]; instr Gate_S [0; 1]; instr Gate_H [2]]%nat
  = Returns [instr Gate_H [2]; instr Gate_S_DAG [1]; instr Gate_S_DAG [0];
             instr Gate_CX [2; 3]; instr Gate_CX [0; 1]]%nat.
Proof. reflexivity. Qed.

Example inverse_of_measurement :
  inverse_of [instr Gate_H [0]; instr Gate_M [0]; instr Gate_S [0]]%nat
  = Throws (Not_unitary (instr Gate_M [0%nat])).
Proof. reflexivity. Qed.

Example inverse_of_odd_pairs :
  inverse_of [instr Gate_CX [0; 1; 2]]%nat = Undefined.
Proof. reflexivity. Qed.

(** *** The gate table keeps the promises the inverter relies on *)

Abbreviation unitary_op := (is_unitary gate_flags GATE_IS_UNITARY).
Abbreviation well_formed_op := (well_formed gate_flags GATE_TARGETS_PAIRS).
Abbreviation flag_of := (has_flag gate_flags).
Abbreviation group_size := (step_of gate_flags GATE_TARGETS_PAIRS).

Lemma gate_inverse_is_unitary g :
  flag_of g GATE_IS_UNITARY = true -> flag_of (gate_inverse g) GATE_IS_UNITARY = true.
Proof. now destruct g. Qed.

Lemma gate_inverse_targets_pairs g :
  flag_of g GATE_IS_UNITARY = true ->
  flag_of (gate_inverse g) GATE_TARGETS_PAIRS = flag_of g GATE_TARGETS_PAIRS.
Proof. now destruct g. Qed.

Lemma tableau_map_undo (f g : PauliString -> PauliString) (t : Tableau) :
  (forall p, g (f p) = p) -> tableau_map g (tableau_map f t) = t.
Proof.
  intros H. destruct t as [rx rz]. unfold tableau_map. cbn [xs zs].
  rewrite !map_map. f_equal; rewrite <- map_id; now apply map_ext.
Qed.

Lemma gate_conj_undo g ts p :
  gate_conj (gate_inverse g) ts (gate_conj g ts p) = p.
Proof.
  destruct g; destruct ts as [|q [|t [|? ?]]]; cbn [gate_conj gate_inverse];
    auto using conj_H_involutive, conj_S_DAG_S, conj_S_S_DAG, conj_CX_involutive.
Qed.

Lemma gate_conj_undone g ts p :
  gate_conj g ts (gate_conj (gate_inverse g) ts p) = p.
Proof.
  destruct g; destruct ts as [|q [|t [|? ?]]]; cbn [gate_conj gate_inverse];
    auto using conj_H_involutive, conj_S_DAG_S, conj_S_S_DAG, conj_CX_involutive.
Qed.

Lemma apply_gate_undo g ts a t :
  flag_of g GATE_IS_UNITARY = true -> length ts = group_size g ->
  apply_gate (gate_inverse g) ts a (apply_gate g ts a t) = t.
Proof. intros _ _. apply tableau_map_undo, gate_conj_undo. Qed.

Lemma apply_gate_undone g ts a t :
  flag_of g GATE_IS_UNITARY = true -> length ts = group_size g ->
  apply_gate g ts a (apply_gate (gate_inverse g) ts a t) = t.
Proof. intros _ _. apply tableau_map_undo, gate_conj_undone. Qed.

Lemma target_groups_one g (ts : list GateTarget) :
  length ts = group_size g ->
  target_groups gate_flags GATE_TARGETS_PAIRS g ts = [ts].
Proof.
  unfold target_groups, step_of.
  destruct (flag_of g GATE_TARGETS_PAIRS).
  - destruct ts as [|a [|b [|? ?]]]; cbn; intros; try lia. reflexivity.
  - destruct ts as [|a [|? ?]]; cbn; intros; try lia. reflexivity.
Qed.

Lemma safe_append_runs (c : StimCircuit) g ts a t :
  Forall well_formed_op c -> length ts = group_size g ->
  run (safe_append c g ts a) t = apply_gate g ts a (run c t).
Proof.
  intros _ Hlen. unfold run, run_circuit, safe_append.
  rewrite fold_left_app. cbn [fold_left].
  unfold run_instruction, forward_emissions. cbn [gate_type targets args].
  now rewrite target_groups_one.
Qed.

Lemma safe_append_well_formed (c : StimCircuit) g ts a :
  Forall well_formed_op c -> length ts = group_size g ->
  Forall well_formed_op (safe_append c g ts a).
Proof.
  intros Hc Hlen. apply Forall_app. split; [exact Hc|].
  constructor; [|constructor].
  unfold well_formed, step_of in *. cbn [gate_type targets].
  intros Hp. rewrite Hp in Hlen. now rewrite Hlen.
Qed.

Lemma safe_append_unitary (c : StimCircuit) g ts a :
  Forall unitary_op c -> flag_of g GATE_IS_UNITARY = true ->
  Forall unitary_op (safe_append c g ts a).
Proof.
  intros Hc Hu. apply Forall_app. split; [exact Hc|].
  constructor; [exact Hu|constructor].
Qed.

(** *** The compiler on this gate table *)

(** The string with operator [u] on qubit [q] and the identity elsewhere. *)
Definition single_pauli (n q : nat) (u : Pauli) : PauliString :=
  {| sign := false;
     paulis := map (fun i => if (i =? q)%nat then u else pauli_I) (seq 0 n) |}.

(** Modelled from the spec: the "initially-identity tableau": X_q is sent
    to X_q and Z_q to Z_q. *)
Definition identity_tableau (n : nat) : Tableau :=
  {| xs := map (fun q => single_pauli n q pauli_X) (seq 0 n);
     zs := map (fun q => single_pauli n q pauli_Z) (seq 0 n) |}.

(** Modelled from the spec: [Circuit::count_qubits] of
    [stim/circuit/circuit.h]: one more than the largest qubit index the
    circuit targets; the compiled tableau has that many qubits. *)
Definition count_qubits (c : StimCircuit) : nat :=
  fold_left (fun n op => fold_left (fun n q => Nat.max n (S q)) (targets op) n) c O.

Definition apply_instruction (op : Instruction) (t : Tableau) : Tableau :=
  run_instruction gate_flags GATE_TARGETS_PAIRS apply_gate t op.

Definition compile (c : StimCircuit) (ignore_noise ignore_measurement ignore_reset : bool)
    : outcome (unsupported GateType GateTarget Arg) Tableau :=
  circuit_to_tableau gate_kind identity_tableau count_qubits apply_instruction
    c ignore_noise ignore_measurement ignore_reset.

Example compile_H_S :
  compile [instr Gate_H [0%nat]; instr Gate_S [0%nat]] false false false
  = Returns {| xs := [{| sign := false; paulis := [pauli_Z] |}];
               zs := [{| sign := false; paulis := [pauli_Y] |}] |}.
Proof. reflexivity. Qed.

Example compile_measurement_ignored :
  compile [instr Gate_H [0%nat]; instr Gate_M [0%nat]] false true false
  = compile [instr Gate_H [0%nat]] false false false.
Proof. reflexivity. Qed.

End Stim.

(** *** The inverter on this gate table *)

Module StimWitnesses.
Import Stim.

Definition sample_circuit : StimCircuit :=
  [instr Gate_CX [0; 1; 2; 3]; instr Gate_S [0; 1]; instr Gate_H [2]]%nat.

Definition measured_circuit : StimCircuit :=
  [instr Gate_H [0]; instr Gate_M [0]; instr Gate_S [0]]%nat.

Lemma sample_circuit_unitary : Forall unitary_op sample_circuit.
Proof. repeat constructor. Defined.

Lemma sample_circuit_well_formed : Forall well_formed_op sample_circuit.
Proof.
  repeat (constructor; try (intros Hpairs; first [reflexivity | discriminate Hpairs])).
Defined.

Lemma measured_circuit_well_formed : Forall well_formed_op measured_circuit.
Proof.
  repeat (constructor; try (intros Hpairs; first [reflexivity | discriminate Hpairs])).
Defined.

Lemma measured_circuit_not_unitary :
  Exists (fun op => ~ unitary_op op) measured_circuit.
Proof. apply Exists_cons_tl, Exists_cons_hd. discriminate. Defined.

Lemma unitary_circuit_inverse_emits_witness :
  Forall unitary_op sample_circuit /\
  Forall well_formed_op sample_circuit /\
  inverse_of sample_circuit
  = Returns [instr Gate_H [2]; instr Gate_S_DAG [1]; instr Gate_S_DAG [0];
             instr Gate_CX [2; 3]; instr Gate_CX [0; 1]]%nat.
Proof.
  split; [exact sample_circuit_unitary|].
  split; [exact sample_circuit_well_formed|].
  exact (proj1 (unitary_circuit_inverse_emits gate_inverse safe_append
                  sample_circuit_unitary sample_circuit_well_formed)).
Defined.

Lemma unitary_circuit_inverse_throws_witness :
  Exists (fun op => ~ unitary_op op) measured_circuit /\
  (forall inverted, inverse_of measured_circuit <> Returns inverted) /\
  exists before op after,
    measured_circuit = before ++ op :: after /\ ~ unitary_op op /\
    Forall unitary_op after /\
    inverse_of measured_circuit = Throws (Not_unitary op).
Proof.
  split; [exact measured_circuit_not_unitary|].
  pose proof (@unitary_circuit_inverse_throws _ _ _ gate_flags GATE_IS_UNITARY
                GATE_TARGETS_PAIRS gate_inverse safe_append measured_circuit
                measured_circuit_not_unitary) as [Hnone Hthrows].
  split; [exact Hnone|exact (Hthrows measured_circuit_well_formed)].
Defined.

Lemma unitary_circuit_inverse_involution_witness :
  Forall unitary_op sample_circuit /\
  Forall well_formed_op sample_circuit /\
  exists inverted twice,
    inverse_of sample_circuit = Returns inverted /\
    inverse_of inverted = Returns twice /\
    forall t, run twice t = run sample_circuit t.
Proof.
  split; [exact sample_circuit_unitary|].
  split; [exact sample_circuit_well_formed|].
  exact (unitary_circuit_inverse_involution gate_inverse safe_append apply_gate
           gate_inverse_is_unitary gate_inverse_targets_pairs
           apply_gate_undo apply_gate_undone
           safe_append_runs safe_append_well_formed safe_append_unitary
           sample_circuit_unitary sample_circuit_well_formed).
Defined.

Lemma circuit_to_tableau_unsupported_witness :
  (refused gate_kind false true false (instr Gate_R [0%nat]) /\
   Forall (passes gate_kind false true false)
     [instr Gate_H [0%nat]; instr Gate_M [0%nat]] /\
   compile ([instr Gate_H [0%nat]; instr Gate_M [0%nat]]
              ++ instr Gate_R [0%nat] :: [instr Gate_S [0%nat]])
     false true false
   = Throws (Unsupported_instruction (instr Gate_R [0%nat]))) /\
  (skipped gate_kind false true false (instr Gate_M [0%nat]) /\
   compile_from gate_kind apply_instruction false true false (identity_tableau 1)
     ([instr Gate_H [0%nat]] ++ instr Gate_M [0%nat] :: [instr Gate_S [0%nat]])
   = compile_from gate_kind apply_instruction false true false (identity_tableau 1)
       ([instr Gate_H [0%nat]] ++ [instr Gate_S [0%nat]])).
Proof.
  assert (Hrefused : refused gate_kind false true false (instr Gate_R [0%nat]))
    by (right; right; split; reflexivity).
  assert (Hbefore : Forall (passes gate_kind false true false)
                      [instr Gate_H [0%nat]; instr Gate_M [0%nat]]).
  { constructor; [left; reflexivity|].
    constructor; [right; right; left; split; reflexivity|constructor]. }
  assert (Hskipped : skipped gate_kind false true false (instr Gate_M [0%nat]))
    by (right; left; split; reflexivity).
  split.
  - split; [exact Hrefused|]. split; [exact Hbefore|].
    exact (proj2 (proj1 (@circuit_to_tableau_unsupported _ _ _ _ gate_kind
                           identity_tableau count_qubits apply_instruction
                           false true false
                           [instr Gate_H [0%nat]; instr Gate_M [0%nat]]
                           [instr Gate_S [0%nat]] (instr Gate_R [0%nat]))
                    Hrefused) Hbefore).
  - split; [exact Hskipped|].
    exact (proj2 (proj2 (@circuit_to_tableau_unsupported _ _ _ _ gate_kind
                           identity_tableau count_qubits apply_instruction
                           false true false
                           [instr Gate_H [0%nat]] [instr Gate_S [0%nat]]
                           (instr Gate_M [0%nat]))
                    Hskipped (identity_tableau 1))).
Defined.

(** *** More circuits *)

Definition odd_pairs_circuit : StimCircuit :=
  [instr Gate_M [0]; instr Gate_CX [0; 1; 2]; instr Gate_H [1]]%nat.

Definition first_part : StimCircuit := [instr Gate_CX [0; 1; 2; 3]]%nat.
Definition second_part : StimCircuit := [instr Gate_S [0; 1]; instr Gate_H [2]]%nat.
Definition broadcast_S : StimCircuit := [instr Gate_S [0; 1]]%nat.
Definition split_S : StimCircuit := [instr Gate_S [0]; instr Gate_S [1]]%nat.

Lemma first_part_unitary : Forall unitary_op first_part.
Proof. repeat constructor. Defined.

Lemma first_part_well_formed : Forall well_formed_op first_part.
Proof.
  repeat (constructor; try (intros Hpairs; first [reflexivity | discriminate Hpairs])).
Defined.

Lemma second_part_unitary : Forall unitary_op second_part.
Proof. repeat constructor. Defined.

Lemma second_part_well_formed : Forall well_formed_op second_part.
Proof.
  repeat (constructor; try (intros Hpairs; first [reflexivity | discriminate Hpairs])).
Defined.

Lemma broadcast_S_unitary : Forall unitary_op broadcast_S.
Proof. repeat constructor. Defined.

Lemma broadcast_S_well_formed : Forall well_formed_op broadcast_S.
Proof.
  repeat (constructor; try (intros Hpairs; first [reflexivity | discriminate Hpairs])).
Defined.

Lemma split_S_unitary : Forall unitary_op split_S.
Proof. repeat constructor. Defined.

Lemma split_S_well_formed : Forall well_formed_op split_S.
Proof.
  repeat (constructor; try (intros Hpairs; first [reflexivity | discriminate Hpairs])).
Defined.

Lemma broadcast_S_split_S :
  operationally_equivalent gate_flags GATE_TARGETS_PAIRS apply_gate broadcast_S split_S.
Proof. intros t. reflexivity. Defined.

Lemma unitary_circuit_inverse_returns_iff_witness :
  Forall well_formed_op measured_circuit /\
  ((exists inverted, inverse_of measured_circuit = Returns inverted) \/
   (exists op,
      In op measured_circuit /\ ~ unitary_op op /\
      inverse_of measured_circuit = Throws (Not_unitary op))).
Proof.
  split; [exact measured_circuit_well_formed|].
  exact (proj2 (@unitary_circuit_inverse_returns_iff _ _ _ gate_flags
                  GATE_IS_UNITARY GATE_TARGETS_PAIRS gate_inverse safe_append
                  measured_circuit)
           measured_circuit_well_formed).
Defined.

Lemma unitary_circuit_inverse_out_of_bounds_witness :
  unitary_op (instr Gate_CX [0; 1; 2]%nat) /\
  (flag_of Gate_CX GATE_TARGETS_PAIRS = true /\
   Nat.even (length [0; 1; 2]%nat) = false) /\
  Forall unitary_op [instr Gate_H [1%nat]] /\
  Forall well_formed_op [instr Gate_H [1%nat]] /\
  inverse_of odd_pairs_circuit = Undefined.
Proof.
  assert (Hop : unitary_op (instr Gate_CX [0; 1; 2]%nat)) by reflexivity.
  assert (Hodd : flag_of (gate_type (instr Gate_CX [0; 1; 2]%nat)) GATE_TARGETS_PAIRS = true /\
                 Nat.even (length (targets (instr Gate_CX [0; 1; 2]%nat))) = false)
    by (split; reflexivity).
  assert (Hu : Forall unitary_op [instr Gate_H [1%nat]]) by (repeat constructor).
  assert (Hw : Forall well_formed_op [instr Gate_H [1%nat]])
    by (repeat (constructor; try (intros Hpairs; discriminate Hpairs))).
  split; [exact Hop|]. split; [exact Hodd|]. split; [exact Hu|]. split; [exact Hw|].
  exact (unitary_circuit_inverse_out_of_bounds gate_inverse safe_append
           [instr Gate_M [0%nat]] Hop Hodd Hu Hw).
Defined.

Lemma unitary_circuit_inverse_app_witness :
  Forall unitary_op first_part /\ Forall well_formed_op first_part /\
  inverse_of second_part = Returns [instr Gate_H [2]; instr Gate_S_DAG [1];
                                    instr Gate_S_DAG [0]]%nat /\
  inverse_of (first_part ++ second_part)
  = Returns [instr Gate_H [2]; instr Gate_S_DAG [1]; instr Gate_S_DAG [0];
             instr Gate_CX [2; 3]; instr Gate_CX [0; 1]]%nat.
Proof.
  assert (E : inverse_of second_part
              = Returns [instr Gate_H [2]; instr Gate_S_DAG [1];
                         instr Gate_S_DAG [0]]%nat) by reflexivity.
  split; [exact first_part_unitary|]. split; [exact first_part_well_formed|].
  split; [exact E|].
  exact (proj2 (unitary_circuit_inverse_app gate_flags GATE_IS_UNITARY
                  GATE_TARGETS_PAIRS gate_inverse safe_append
                  first_part second_part)
           first_part_unitary first_part_well_formed _ E).
Defined.

Lemma unitary_circuit_inverse_targets_witness :
  Forall unitary_op sample_circuit /\
  Forall well_formed_op sample_circuit /\
  Permutation [2; 1; 0; 2; 3; 0; 1]%nat [0; 1; 2; 3; 0; 1; 2]%nat.
Proof.
  split; [exact sample_circuit_unitary|].
  split; [exact sample_circuit_well_formed|].
  exact (proj1 (proj2 (unitary_circuit_inverse_targets gate_inverse safe_append
                         sample_circuit_unitary sample_circuit_well_formed))).
Defined.

Lemma unitary_circuit_inverse_is_inverse_witness :
  Forall unitary_op sample_circuit /\
  Forall well_formed_op sample_circuit /\
  exists inverted,
    inverse_of sample_circuit = Returns inverted /\
    (forall t, run inverted (run sample_circuit t) = t) /\
    (forall t, run sample_circuit (run inverted t) = t).
Proof.
  split; [exact sample_circuit_unitary|].
  split; [exact sample_circuit_well_formed|].
  exact (unitary_circuit_inverse_is_inverse gate_inverse safe_append apply_gate
           gate_inverse_is_unitary gate_inverse_targets_pairs
           apply_gate_undo apply_gate_undone
           safe_append_runs safe_append_well_formed safe_append_unitary
           sample_circuit_unitary sample_circuit_well_formed).
Defined.

Lemma unitary_circuit_inverse_closed_witness :
  Forall unitary_op sample_circuit /\
  Forall well_formed_op sample_circuit /\
  exists inverted,
    inverse_of sample_circuit = Returns inverted /\
    Forall unitary_op inverted /\ Forall well_formed_op inverted /\
    exists twice, inverse_of inverted = Returns twice.
Proof.
  split; [exact sample_circuit_unitary|].
  split; [exact sample_circuit_well_formed|].
  exact (unitary_circuit_inverse_closed gate_inverse safe_append
           gate_inverse_is_unitary gate_inverse_targets_pairs
           safe_append_well_formed safe_append_unitary
           sample_circuit_unitary sample_circuit_well_formed).
Defined.

Lemma unitary_circuit_inverse_equivalent_witness :
  operationally_equivalent gate_flags GATE_TARGETS_PAIRS apply_gate broadcast_S split_S /\
  exists inverted1 inverted2,
    inverse_of broadcast_S = Returns inverted1 /\
    inverse_of split_S = Returns inverted2 /\
    operationally_equivalent gate_flags GATE_TARGETS_PAIRS apply_gate
      inverted1 inverted2.
Proof.
  split; [exact broadcast_S_split_S|].
  exact (unitary_circuit_inverse_equivalent gate_inverse safe_append
           gate_inverse_is_unitary gate_inverse_targets_pairs
           apply_gate_undo apply_gate_undone
           safe_append_runs safe_append_well_formed safe_append_unitary
           broadcast_S_unitary broadcast_S_well_formed
           split_S_unitary split_S_well_formed broadcast_S_split_S).
Defined.

Lemma unitary_circuit_inverse_app_runs_witness :
  Forall unitary_op first_part /\ Forall well_formed_op first_part /\
  Forall unitary_op second_part /\ Forall well_formed_op second_part /\
  exists inverted inverted1 inverted2,
    inverse_of (first_part ++ second_part) = Returns inverted /\
    inverse_of first_part = Returns inverted1 /\
    inverse_of second_part = Returns inverted2 /\
    forall t, run inverted t = run inverted1 (run inverted2 t).
Proof.
  split; [exact first_part_unitary|]. split; [exact first_part_well_formed|].
  split; [exact second_part_unitary|]. split; [exact second_part_well_formed|].
  exact (unitary_circuit_inverse_app_runs gate_inverse safe_append apply_gate
           gate_inverse_is_unitary gate_inverse_targets_pairs
           safe_append_runs safe_append_well_formed safe_append_unitary
           first_part_unitary first_part_well_formed
           second_part_unitary second_part_well_formed).
Defined.

End StimWitnesses.

(** ** The stabilizer completion solver *)

Module Completion.
Import Pauli Stim.

(** The product of two Pauli strings, signs and phases left out: the sum
    of the two rows over GF(2). *)
Definition mul_paulis (a b : list Pauli) : list Pauli :=
  map (fun uv => (xorb (fst (fst uv)) (fst (snd uv)),
                  xorb (snd (fst uv)) (snd (snd uv))))
      (combine a b).

(** Every product of some of the [rows]: their span over GF(2). *)
Fixpoint span_of (zero : list Pauli) (rows : list (list Pauli)) : list (list Pauli) :=
  match rows with
  | [] => [zero]
  | r :: rest => span_of zero rest ++ map (mul_paulis r) (span_of zero rest)
  end.

Definition pauli_eqb (u v : Pauli) : bool :=
  Bool.eqb (fst u) (fst v) && Bool.eqb (snd u) (snd v).

Fixpoint paulis_eqb (a b : list Pauli) : bool :=
  match a, b with
  | [], [] => true
  | u :: a', v :: b' => pauli_eqb u v && paulis_eqb a' b'
  | _, _ => false
  end.

(** A row is linearly dependent on the accepted rows when it is a product
    of some of them. *)
Definition dependent (accepted : list PauliString) (row : PauliString) : bool :=
  existsb (paulis_eqb (paulis row))
    (span_of (repeat pauli_I (length (paulis row))) (map paulis accepted)).




Section Solver.

(** What the specification leaves open is a parameter: the rows that fill
    an underconstrained set ("filled arbitrarily"), the destabilizers that
    go with a full set of stabilizers, and the inverse of a tableau. *)
Variable fill_missing : nat -> list PauliString -> list PauliString.
Variable destabilizers : nat -> list PauliString -> list PauliString.
Variable tableau_inverse : Tableau -> Tableau.


End Solver.

Definition pauli_string (negative : bool) (ps : list Pauli) : PauliString :=
  {| sign := negative; paulis := ps |}.

Definition plus_XX : PauliString := pauli_string false [pauli_X; pauli_X].
Definition plus_ZZ : PauliString := pauli_string false [pauli_Z; pauli_Z].

Example dependent_YY :
  dependent [plus_XX; plus_ZZ] (pauli_string true [pauli_Y; pauli_Y]) = true.
Proof. reflexivity. Qed.

Example independent_XI :
  dependent [plus_XX; plus_ZZ] (pauli_string false [pauli_X; pauli_I]) = false.
Proof. reflexivity. Qed.

(** *** Linear dependence *)





(** *** What linear dependence is *)











(** *** The row loop *)





Section SolverFacts.

Variable fill_missing : nat -> list PauliString -> list PauliString.
Variable destabilizers : nat -> list PauliString -> list PauliString.
Variable tableau_inverse : Tableau -> Tableau.


End SolverFacts.





End Completion.

(** ** Commutation of Pauli strings *)

Module Symplectic.
Import Pauli.

(** Two single-qubit operators anticommute when they are different and
    neither is the identity. *)
Definition anticommute_at (u v : Pauli) : bool :=
  xorb (fst u && snd v) (snd u && fst v).

(** The sum over GF(2) of [f 0 .. f (n-1)]. *)
Fixpoint xsum (n : nat) (f : nat -> bool) : bool :=
  match n with
  | O => false
  | S n' => xorb (xsum n' f) (f n')
  end.

(** The symplectic product of two strings on [n] qubits: [true] when they
    anticommute. *)
Definition anticommute (n : nat) (a b : PauliString) : bool :=
  xsum n (fun q => anticommute_at (pauli_at a q) (pauli_at b q)).

Lemma xsum_ext n f g :
  (forall i, i < n -> f i = g i) -> xsum n f = xsum n g.
Proof.
  induction n as [|n IH]; intros H; [reflexivity|].
  cbn. rewrite IH, H by auto. reflexivity.
Qed.

Lemma xsum_false n f :
  (forall i, i < n -> f i = false) -> xsum n f = false.
Proof.
  induction n as [|n IH]; intros H; [reflexivity|].
  cbn. rewrite IH, H by auto. reflexivity.
Qed.

Lemma xsum_split n f c :
  c < n ->
  xsum n f = xorb (f c) (xsum n (fun i => if i =? c then false else f i)).
Proof.
  induction n as [|n IH]; intros Hc; [lia|].
  cbn [xsum]. destruct (Nat.eqb_spec n c) as [->|Hne].
  - rewrite (@xsum_ext c (fun i => if i =? c then false else f i) f).
    + rewrite xorb_false_r. apply xorb_comm.
    + intros i Hi. destruct (Nat.eqb_spec i c); [lia|reflexivity].
  - rewrite IH by lia. now rewrite xorb_assoc.
Qed.

Lemma xsum_single n f c :
  c < n -> (forall i, i < n -> i <> c -> f i = false) -> xsum n f = f c.
Proof.
  intros Hc H. rewrite (@xsum_split n f c Hc), xsum_false; [apply xorb_false_r|].
  intros i Hi. destruct (Nat.eqb_spec i c); auto.
Qed.

Lemma xsum_true n f :
  xsum n f = true -> exists i, i < n /\ f i = true.
Proof.
  induction n as [|n IH]; cbn; [discriminate|].
  destruct (f n) eqn:E.
  - intros _. exists n. auto.
  - rewrite xorb_false_r. intros H. destruct (IH H) as (i & Hi & Hf).
    exists i. auto.
Qed.

(** Sums that differ at two places only, by the same amount in all. *)
Lemma xsum_ext2 n f g c t :
  c < n -> t < n -> c <> t ->
  (forall i, i < n -> i <> c -> i <> t -> f i = g i) ->
  xorb (f c) (f t) = xorb (g c) (g t) ->
  xsum n f = xsum n g.
Proof.
  intros Hc Ht Hne Hext Hct.
  rewrite (@xsum_split n f c Hc), (@xsum_split n g c Hc).
  rewrite (@xsum_split n (fun i => if i =? c then false else f i) t Ht).
  rewrite (@xsum_split n (fun i => if i =? c then false else g i) t Ht).
  assert (E : (t =? c) = false) by (apply Nat.eqb_neq; auto).
  rewrite E, <- !xorb_assoc, Hct. f_equal.
  apply xsum_ext. intros i Hi.
  destruct (Nat.eqb_spec i t); [reflexivity|].
  destruct (Nat.eqb_spec i c); [reflexivity|]. now apply Hext.
Qed.

Lemma anticommute_sym n a b : anticommute n a b = anticommute n b a.
Proof.
  apply xsum_ext. intros i _. unfold anticommute_at.
  destruct (pauli_at a i) as [[] []], (pauli_at b i) as [[] []]; reflexivity.
Qed.

(** *** The gates keep the commutation relations *)

Lemma anticommute_conj1 image negated n q a b :
  image pauli_I = pauli_I ->
  (forall u v, anticommute_at (image u) (image v) = anticommute_at u v) ->
  anticommute n (conj1 image negated q a) (conj1 image negated q b)
  = anticommute n a b.
Proof.
  intros HI Hloc. apply xsum_ext. intros i _.
  rewrite !pauli_at_conj1 by assumption.
  destruct (Nat.eqb_spec i q) as [->|]; [apply Hloc|reflexivity].
Qed.

Lemma anticommute_conj_H n q a b :
  anticommute n (conj_H q a) (conj_H q b) = anticommute n a b.
Proof.
  apply anticommute_conj1; [reflexivity|].
  intros [[] []] [[] []]; reflexivity.
Qed.

Lemma anticommute_conj_S n q a b :
  anticommute n (conj_S q a) (conj_S q b) = anticommute n a b.
Proof.
  apply anticommute_conj1; [reflexivity|].
  intros [[] []] [[] []]; reflexivity.
Qed.

Lemma anticommute_conj_CX n c t a b :
  length (paulis a) = n -> length (paulis b) = n ->
  anticommute n (conj_CX c t a) (conj_CX c t b) = anticommute n a b.
Proof.
  intros Ha Hb.
  destruct (Nat.eq_dec c t) as [E|Hne].
  { now rewrite !conj_CX_outside by auto. }
  destruct (Nat.ltb_spec c n) as [Hc|Hc].
  2:{ rewrite !conj_CX_outside; auto; right; left; lia. }
  destruct (Nat.ltb_spec t n) as [Ht|Ht].
  2:{ rewrite !conj_CX_outside; auto; right; right; lia. }
  apply xsum_ext2 with (c := c) (t := t); auto.
  - intros i Hi Hic Hit.
    rewrite !pauli_at_conj_CX by (auto; lia).
    apply Nat.eqb_neq in Hic, Hit. now rewrite Hic, Hit.
  - rewrite !pauli_at_conj_CX by (auto; lia).
    rewrite !Nat.eqb_refl.
    assert (Hct : (c =? t) = false) by now apply Nat.eqb_neq.
    rewrite Hct. unfold anticommute_at. cbn [fst snd].
    destruct (pauli_at a c) as [[] []], (pauli_at a t) as [[] []],
             (pauli_at b c) as [[] []], (pauli_at b t) as [[] []]; reflexivity.
Qed.

End Symplectic.

(** ** Synthesis by elimination *)

Module Synthesis.
Import Pauli Symplectic Stim.
Unset Implicit Arguments.

Definition gate_H (q : nat) : Instruction := instr Gate_H [q].
Definition gate_S (q : nat) : Instruction := instr Gate_S [q].
Definition gate_CX (c t : nat) : Instruction := instr Gate_CX [c; t].

(** What a circuit does to one Pauli string: a row of the tableau. *)
Definition instruction_conj (op : Instruction) (p : PauliString) : PauliString :=
  fold_left (fun p grp => gate_conj (gate_type op) grp p)
    (target_groups gate_flags GATE_TARGETS_PAIRS (gate_type op) (targets op)) p.

Definition circuit_conj (c : StimCircuit) (p : PauliString) : PauliString :=
  fold_left (fun p op => instruction_conj op p) c p.

(** A step of the elimination reads the two rows it works on, the images of
    X_col and Z_col, and says which gates come next. *)
Definition program : Type := PauliString -> PauliString -> StimCircuit.

Definition and_then (first next : program) : program :=
  fun rx rz =>
    let gates := first rx rz in
    gates ++ next (circuit_conj gates rx) (circuit_conj gates rz).

(** One step for each qubit of [qs], each reading the rows as the steps
    before it left them. *)
Fixpoint sweep (step : nat -> program) (qs : list nat) : program :=
  match qs with
  | [] => fun _ _ => []
  | q :: qs' => and_then (step q) (sweep step qs')
  end.

(** Make the X row free of Z: turn Z into X with H, Y into X with S. *)
Definition x_rotate (q : nat) : program :=
  fun rx _ =>
    match pauli_at rx q with
    | (false, true) => [gate_H q]
    | (true, true) => [gate_S q]
    | _ => []
    end.

(** Give the X row an X on the diagonal, copying one from below it. *)
Definition x_seed (col n : nat) : program :=
  fun rx _ =>
    if fst (pauli_at rx col) then []
    else match find (fun q => fst (pauli_at rx q)) (seq (S col) (n - S col)) with
         | Some q => [gate_CX q col]
         | None => []
         end.

(** Cancel the off-diagonal X of the X row. *)
Definition x_clear (col q : nat) : program :=
  fun rx _ => if fst (pauli_at rx q) then [gate_CX col q] else [].

(** Make the off-diagonal part of the Z row free of X. *)
Definition z_rotate (q : nat) : program :=
  fun _ rz =>
    match pauli_at rz q with
    | (true, false) => [gate_H q]
    | (true, true) => [gate_S q; gate_H q]
    | _ => []
    end.

(** Cancel the off-diagonal Z of the Z row. *)
Definition z_clear (col q : nat) : program :=
  fun _ rz => if snd (pauli_at rz q) then [gate_CX q col] else [].

(** Turn a Y on the diagonal of the Z row into Z, keeping the X row. *)
Definition z_fix (col : nat) : program :=
  fun _ rz =>
    if fst (pauli_at rz col) then [gate_H col; gate_S col; gate_H col] else [].

(** Make both rows positive: Z = S S negates X, X = H S S H negates Z. *)
Definition x_sign (col : nat) : program :=
  fun rx _ => if sign rx then [gate_S col; gate_S col] else [].

Definition z_sign (col : nat) : program :=
  fun _ rz =>
    if sign rz then [gate_H col; gate_S col; gate_S col; gate_H col] else [].

(** The gates that bring the rows of column [col] to X_col and Z_col. *)
Definition column_gates (col n : nat) : program :=
  and_then (sweep x_rotate (seq col (n - col)))
 (and_then (x_seed col n)
 (and_then (sweep (x_clear col) (seq (S col) (n - S col)))
 (and_then (sweep z_rotate (seq (S col) (n - S col)))
 (and_then (sweep (z_clear col) (seq (S col) (n - S col)))
 (and_then (z_fix col)
 (and_then (x_sign col) (z_sign col))))))).

Definition row (rows : list PauliString) (i : nat) : PauliString :=
  nth i rows {| sign := false; paulis := [] |}.

(** Column after column, the gates that bring the whole tableau to the
    identity. *)
Fixpoint eliminate (columns col n : nat) (t : Tableau) : StimCircuit :=
  match columns with
  | O => []
  | S columns' =>
      let gates := column_gates col n (row (xs t) col) (row (zs t) col) in
      gates ++ eliminate columns' (S col) n (tableau_map (circuit_conj gates) t)
  end.

(** The inverse of a gate, within the gate set H, S, CX. *)
Definition undo_gate (op : Instruction) : StimCircuit :=
  match gate_type op with
  | Gate_S => [op; op; op]
  | _ => [op]
  end.

Definition num_qubits (t : Tableau) : nat := length (xs t).

(** Modelled from the spec: [tableau_to_circuit_elimination_method] of
    [conversions.inl]: "repeatedly eliminate off-diagonal symplectic entries
    using a bounded sequence of H/S/CX-equivalent gates via Gaussian
    elimination over GF(2)", "Gate set: H, S, CX", "Circuit qubit count: n".
    The gates that reduce the tableau to the identity are undone in reverse
    order; a circuit that would not reach the last qubit is extended by two
    H gates on it, which cancel. *)
Definition tableau_to_circuit_elimination_method (t : Tableau) : StimCircuit :=
  let n := num_qubits t in
  let circuit := flat_map undo_gate (rev (eliminate n 0 n t)) in
  if count_qubits circuit <? n
  then circuit ++ [gate_H (n - 1); gate_H (n - 1)]
  else circuit.

Definition sample_tableau : Tableau :=
  match compile [gate_H 0; gate_CX 0 1; gate_S 1; gate_CX 1 2; gate_H 2;
                 gate_S 0; gate_CX 2 0; gate_S 2; gate_S 2]
          false false false with
  | Returns t => t
  | _ => identity_tableau 0
  end.

Example elimination_round_trip_sample :
  compile (tableau_to_circuit_elimination_method sample_tableau) false false false
  = Returns sample_tableau.
Proof. vm_compute. reflexivity. Qed.

Example elimination_round_trip_identity :
  compile (tableau_to_circuit_elimination_method (identity_tableau 3)) false false false
  = Returns (identity_tableau 3).
Proof. vm_compute. reflexivity. Qed.

(** *** Circuits on rows *)

Lemma circuit_conj_app c1 c2 p :
  circuit_conj (c1 ++ c2) p = circuit_conj c2 (circuit_conj c1 p).
Proof. apply fold_left_app. Qed.

Lemma circuit_conj_H q c p : circuit_conj (gate_H q :: c) p = circuit_conj c (conj_H q p).
Proof. reflexivity. Qed.

Lemma circuit_conj_S q c p : circuit_conj (gate_S q :: c) p = circuit_conj c (conj_S q p).
Proof. reflexivity. Qed.

Lemma circuit_conj_CX a b c p :
  circuit_conj (gate_CX a b :: c) p = circuit_conj c (conj_CX a b p).
Proof. reflexivity. Qed.

Lemma circuit_conj_nil p : circuit_conj [] p = p.
Proof. reflexivity. Qed.

Lemma tableau_map_id (t : Tableau) : tableau_map (fun p => p) t = t.
Proof. destruct t. unfold tableau_map. cbn. now rewrite !map_id. Qed.

Lemma tableau_map_map f g (t : Tableau) :
  tableau_map f (tableau_map g t) = tableau_map (fun p => f (g p)) t.
Proof. unfold tableau_map. cbn. now rewrite !map_map. Qed.

Lemma tableau_map_ext f g (t : Tableau) :
  (forall p, f p = g p) -> tableau_map f t = tableau_map g t.
Proof. intros H. unfold tableau_map. f_equal; now apply map_ext. Qed.

(** Running a circuit on a tableau runs it on every row. *)
Lemma run_rows (c : StimCircuit) (t : Tableau) :
  run c t = tableau_map (circuit_conj c) t.
Proof.
  unfold run, run_circuit, circuit_conj. revert t.
  induction c as [|op c IH]; intros t; cbn [fold_left].
  - now rewrite tableau_map_id.
  - rewrite IH.
    assert (E : run_instruction gate_flags GATE_TARGETS_PAIRS apply_gate t op
                = tableau_map (instruction_conj op) t).
    { unfold run_instruction, forward_emissions, instruction_conj.
      generalize (target_groups gate_flags GATE_TARGETS_PAIRS (gate_type op) (targets op)).
      intros groups. revert t.
      induction groups as [|grp groups IHg]; intros t; cbn [map fold_left].
      - now rewrite tableau_map_id.
      - rewrite IHg. cbn [apply_emission]. unfold apply_gate.
        now rewrite tableau_map_map. }
    rewrite E, tableau_map_map. reflexivity.
Qed.

(** *** The gates of the elimination *)

(** A gate H, S or CX on qubits from [lo] up to [n - 1]. *)
Inductive basic (lo n : nat) : Instruction -> Prop :=
| basic_H q : lo <= q < n -> basic lo n (gate_H q)
| basic_S q : lo <= q < n -> basic lo n (gate_S q)
| basic_CX c t : lo <= c < n -> lo <= t < n -> c <> t -> basic lo n (gate_CX c t).

Lemma basic_weaken lo lo' n op : lo' <= lo -> basic lo n op -> basic lo' n op.
Proof. intros Hl H. destruct H; constructor; lia. Qed.

Lemma conj_H_at q p i :
  pauli_at (conj_H q p) i = if i =? q then H_image (pauli_at p q) else pauli_at p i.
Proof. now apply pauli_at_conj1. Qed.

Lemma conj_S_at q p i :
  pauli_at (conj_S q p) i = if i =? q then S_image (pauli_at p q) else pauli_at p i.
Proof. now apply pauli_at_conj1. Qed.

Lemma conj_H_sign q p : sign (conj_H q p) = xorb (sign p) (H_negated (pauli_at p q)).
Proof. reflexivity. Qed.

Lemma conj_S_sign q p : sign (conj_S q p) = xorb (sign p) (S_negated (pauli_at p q)).
Proof. reflexivity. Qed.

Lemma conj_CX_sign c t p :
  c <> t -> c < length (paulis p) -> t < length (paulis p) ->
  sign (conj_CX c t p)
  = xorb (sign p)
      (fst (pauli_at p c) && snd (pauli_at p t)
       && negb (xorb (fst (pauli_at p t)) (snd (pauli_at p c)))).
Proof. intros. now rewrite conj_CX_inside. Qed.

Lemma basic_length lo n op p :
  basic lo n op -> length (paulis (instruction_conj op p)) = length (paulis p).
Proof.
  intros [q _|q _|c t _ _ _].
  - apply conj1_length.
  - apply conj1_length.
  - apply conj_CX_length.
Qed.

(** A gate leaves alone the qubits it does not target. *)
Lemma basic_below lo n op p q :
  basic lo n op -> length (paulis p) = n -> q < lo ->
  pauli_at (instruction_conj op p) q = pauli_at p q.
Proof.
  intros [a Ha|a Ha|c t Hc Ht Hne] Hn Hq.
  - change (instruction_conj (gate_H a) p) with (conj_H a p).
    rewrite conj_H_at. destruct (Nat.eqb_spec q a); [lia|reflexivity].
  - change (instruction_conj (gate_S a) p) with (conj_S a p).
    rewrite conj_S_at. destruct (Nat.eqb_spec q a); [lia|reflexivity].
  - change (instruction_conj (gate_CX c t) p) with (conj_CX c t p).
    rewrite pauli_at_conj_CX by lia.
    destruct (Nat.eqb_spec q t); [lia|]. destruct (Nat.eqb_spec q c); [lia|reflexivity].
Qed.

Lemma basic_anticommute lo n op a b :
  basic lo n op -> length (paulis a) = n -> length (paulis b) = n ->
  anticommute n (instruction_conj op a) (instruction_conj op b) = anticommute n a b.
Proof.
  intros [q _|q _|c t _ _ _] Ha Hb.
  - apply anticommute_conj_H.
  - apply anticommute_conj_S.
  - now apply anticommute_conj_CX.
Qed.

(** A gate leaves alone a string that is the identity on its targets. *)
Lemma conj1_fixed image negated q p :
  image pauli_I = pauli_I -> negated pauli_I = false ->
  pauli_at p q = pauli_I -> conj1 image negated q p = p.
Proof.
  intros HI Hn Hq. apply PauliString_eq.
  - unfold conj1. cbn [sign]. rewrite Hq, Hn. apply xorb_false_r.
  - apply paulis_ext; [apply conj1_length|].
    intros i _. fold (pauli_at (conj1 image negated q p) i). fold (pauli_at p i).
    rewrite pauli_at_conj1 by assumption.
    destruct (Nat.eqb_spec i q) as [->|]; [|reflexivity]. now rewrite Hq, HI.
Qed.

Lemma conj_CX_fixed c t p :
  pauli_at p c = pauli_I -> pauli_at p t = pauli_I -> conj_CX c t p = p.
Proof.
  intros Hc Ht.
  destruct (Nat.eq_dec c t) as [E|Hne]; [apply conj_CX_outside; auto|].
  destruct (Nat.ltb_spec c (length (paulis p))) as [Hcl|Hcl];
    [|apply conj_CX_outside; auto].
  destruct (Nat.ltb_spec t (length (paulis p))) as [Htl|Htl];
    [|apply conj_CX_outside; auto].
  apply PauliString_eq.
  - rewrite conj_CX_sign, Hc, Ht by assumption. cbn. apply xorb_false_r.
  - apply paulis_ext; [apply conj_CX_length|].
    intros i _. fold (pauli_at (conj_CX c t p) i). fold (pauli_at p i).
    rewrite pauli_at_conj_CX, Hc, Ht by assumption. cbn.
    destruct (Nat.eqb_spec i t) as [->|]; [now rewrite Ht|].
    destruct (Nat.eqb_spec i c) as [->|]; [now rewrite Hc|reflexivity].
Qed.

Lemma basic_fixed lo n op p :
  basic lo n op -> (forall q, lo <= q -> pauli_at p q = pauli_I) ->
  instruction_conj op p = p.
Proof.
  intros [q Hq|q Hq|c t Hc Ht _] Hp.
  - apply conj1_fixed; auto. apply Hp; lia.
  - apply conj1_fixed; auto. apply Hp; lia.
  - apply conj_CX_fixed; apply Hp; lia.
Qed.

Lemma circuit_length lo n c p :
  Forall (basic lo n) c -> length (paulis (circuit_conj c p)) = length (paulis p).
Proof.
  intros H. revert p. induction H as [|op c Hop _ IH]; intros p; [reflexivity|].
  cbn [circuit_conj fold_left]. fold (circuit_conj c (instruction_conj op p)).
  rewrite IH. now apply basic_length with (lo := lo) (n := n).
Qed.

Lemma circuit_below lo n c p q :
  Forall (basic lo n) c -> length (paulis p) = n -> q < lo ->
  pauli_at (circuit_conj c p) q = pauli_at p q.
Proof.
  intros H. revert p. induction H as [|op c Hop _ IH]; intros p Hn Hq; [reflexivity|].
  cbn [circuit_conj fold_left]. fold (circuit_conj c (instruction_conj op p)).
  rewrite IH; auto.
  - now apply basic_below with (lo := lo) (n := n).
  - now rewrite (basic_length _ _ _ p Hop).
Qed.

Lemma circuit_anticommute lo n c a b :
  Forall (basic lo n) c -> length (paulis a) = n -> length (paulis b) = n ->
  anticommute n (circuit_conj c a) (circuit_conj c b) = anticommute n a b.
Proof.
  intros H. revert a b. induction H as [|op c Hop _ IH]; intros a b Ha Hb; [reflexivity|].
  cbn [circuit_conj fold_left].
  fold (circuit_conj c (instruction_conj op a)). fold (circuit_conj c (instruction_conj op b)).
  rewrite IH.
  - now apply basic_anticommute with (lo := lo).
  - now rewrite (basic_length _ _ _ a Hop).
  - now rewrite (basic_length _ _ _ b Hop).
Qed.

Lemma circuit_fixed lo n c p :
  Forall (basic lo n) c -> (forall q, lo <= q -> pauli_at p q = pauli_I) ->
  circuit_conj c p = p.
Proof.
  intros H Hp. induction H as [|op c Hop _ IH]; [reflexivity|].
  cbn [circuit_conj fold_left]. fold (circuit_conj c (instruction_conj op p)).
  now rewrite (basic_fixed _ _ _ _ Hop Hp).
Qed.

(** *** Reasoning about the steps *)

(** What holds of the two rows of column [col] all along: they are strings
    on [n] qubits, the identity on the qubits below [col], and they
    anticommute. *)
Record rows_ok (col n : nat) (rx rz : PauliString) : Prop := {
  rx_length : length (paulis rx) = n;
  rz_length : length (paulis rz) = n;
  rx_below : forall q, q < col -> pauli_at rx q = pauli_I;
  rz_below : forall q, q < col -> pauli_at rz q = pauli_I;
  rows_anticommute : anticommute n rx rz = true
}.

Lemma rows_ok_conj col n c rx rz :
  Forall (basic col n) c -> rows_ok col n rx rz ->
  rows_ok col n (circuit_conj c rx) (circuit_conj c rz).
Proof.
  intros Hc [Hx Hz Hbx Hbz Ha]. constructor.
  - now rewrite (circuit_length _ _ _ rx Hc).
  - now rewrite (circuit_length _ _ _ rz Hc).
  - intros q Hq. rewrite (circuit_below _ _ _ _ _ Hc) by assumption. now apply Hbx.
  - intros q Hq. rewrite (circuit_below _ _ _ _ _ Hc) by assumption. now apply Hbz.
  - now rewrite (circuit_anticommute _ _ _ _ _ Hc).
Qed.

(** A step that, started on rows where [P] holds, emits gates on the
    qubits [col .. n-1] only and leaves rows where [Q] holds. *)
Definition triple (col n : nat) (P : PauliString -> PauliString -> Prop)
    (prog : program) (Q : PauliString -> PauliString -> Prop) : Prop :=
  forall rx rz,
    rows_ok col n rx rz -> P rx rz ->
    Forall (basic col n) (prog rx rz) /\
    Q (circuit_conj (prog rx rz) rx) (circuit_conj (prog rx rz) rz).

Lemma triple_and_then col n P Q R first next :
  triple col n P first Q -> triple col n Q next R ->
  triple col n P (and_then first next) R.
Proof.
  intros H1 H2 rx rz Hok HP. unfold and_then.
  destruct (H1 rx rz Hok HP) as [Hb1 HQ].
  destruct (H2 _ _ (rows_ok_conj _ _ _ _ _ Hb1 Hok) HQ) as [Hb2 HR].
  split; [now apply Forall_app|]. now rewrite !circuit_conj_app.
Qed.

Lemma triple_sweep col n step qs (Inv : list nat -> PauliString -> PauliString -> Prop) :
  (forall done q rest, qs = done ++ q :: rest ->
     triple col n (Inv done) (step q) (Inv (done ++ [q]))) ->
  triple col n (Inv []) (sweep step qs) (Inv qs).
Proof.
  intros Hstep.
  assert (G : forall rest done, qs = done ++ rest ->
                triple col n (Inv done) (sweep step rest) (Inv qs)).
  { induction rest as [|q rest IH]; intros done E.
    - rewrite app_nil_r in E. subst done. intros rx rz _ HP.
      split; [constructor|exact HP].
    - cbn [sweep]. apply triple_and_then with (Q := Inv (done ++ [q])).
      + now apply Hstep with (rest := rest).
      + apply IH. now rewrite <- app_assoc. }
  now apply G.
Qed.

Lemma triple_weaken col n (P P' Q Q' : PauliString -> PauliString -> Prop) prog :
  (forall rx rz, rows_ok col n rx rz -> P' rx rz -> P rx rz) ->
  (forall rx rz, rows_ok col n rx rz -> Q rx rz -> Q' rx rz) ->
  triple col n P prog Q -> triple col n P' prog Q'.
Proof.
  intros HP HQ H rx rz Hok HP'.
  destruct (H rx rz Hok (HP _ _ Hok HP')) as [Hb Hq].
  split; [exact Hb|]. apply HQ; [now apply rows_ok_conj|exact Hq].
Qed.

(** *** The steps on the X row *)

Ltac eqb_cases :=
  repeat match goal with
         | |- context [?a =? ?b] => destruct (Nat.eqb_spec a b); subst
         end.

(** The row has no Z component: it is a product of X operators. *)
Definition X_type (rx : PauliString) : Prop :=
  forall q, snd (pauli_at rx q) = false.

(** The row is X on qubit [col] and the identity elsewhere, up to sign. *)
Definition X_done (col : nat) (rx : PauliString) : Prop :=
  forall q, pauli_at rx q = if q =? col then pauli_X else pauli_I.

Definition Z_done (col : nat) (rz : PauliString) : Prop :=
  forall q, pauli_at rz q = if q =? col then pauli_Z else pauli_I.

Lemma x_rotate_step col n q done :
  col <= q < n ->
  triple col n
    (fun rx _ => forall q', In q' done -> snd (pauli_at rx q') = false)
    (x_rotate q)
    (fun rx _ => forall q', In q' (done ++ [q]) -> snd (pauli_at rx q') = false).
Proof.
  intros Hq rx rz Hok HP. unfold x_rotate.
  destruct (pauli_at rx q) as [[] []] eqn:E.
  - split; [repeat constructor; lia|].
    intros q' Hin. rewrite circuit_conj_S, circuit_conj_nil, conj_S_at.
    destruct (Nat.eqb_spec q' q) as [->|Hne]; [now rewrite E|].
    apply in_app_iff in Hin. destruct Hin as [Hin|[->|[]]]; [auto|contradiction].
  - split; [constructor|].
    intros q' Hin. rewrite circuit_conj_nil.
    apply in_app_iff in Hin. destruct Hin as [Hin|[<-|[]]]; [auto|now rewrite E].
  - split; [repeat constructor; lia|].
    intros q' Hin. rewrite circuit_conj_H, circuit_conj_nil, conj_H_at.
    destruct (Nat.eqb_spec q' q) as [->|Hne]; [now rewrite E|].
    apply in_app_iff in Hin. destruct Hin as [Hin|[->|[]]]; [auto|contradiction].
  - split; [constructor|].
    intros q' Hin. rewrite circuit_conj_nil.
    apply in_app_iff in Hin. destruct Hin as [Hin|[<-|[]]]; [auto|now rewrite E].
Qed.

Lemma in_seq_middle (done rest : list nat) (q : nat) start len :
  seq start len = done ++ q :: rest -> start <= q < start + len.
Proof.
  intros E. apply in_seq. rewrite E. apply in_app_iff. right. now left.
Qed.

Lemma x_rotate_sweep col n :
  triple col n (fun _ _ => True)
    (sweep x_rotate (seq col (n - col)))
    (fun rx _ => X_type rx).
Proof.
  apply triple_weaken
    with (P := fun rx _ => forall q', In q' [] -> snd (pauli_at rx q') = false)
         (Q := fun rx _ => forall q', In q' (seq col (n - col))
                                      -> snd (pauli_at rx q') = false).
  - intros rx rz _ _ q' [].
  - intros rx rz Hok H q.
    destruct (Nat.ltb_spec q col) as [Hlt|Hge].
    + now rewrite (rx_below _ _ _ _ Hok q Hlt).
    + destruct (Nat.ltb_spec q n) as [Hin|Hout].
      * apply H. apply in_seq. lia.
      * rewrite pauli_at_outside; [reflexivity|]. rewrite (rx_length _ _ _ _ Hok). lia.
  - apply triple_sweep
      with (Inv := fun done rx _ => forall q', In q' done -> snd (pauli_at rx q') = false).
    intros done q rest E. apply x_rotate_step.
    apply in_seq_middle in E. lia.
Qed.

Lemma x_seed_step col n :
  col < n ->
  triple col n (fun rx _ => X_type rx) (x_seed col n)
    (fun rx _ => X_type rx /\ fst (pauli_at rx col) = true).
Proof.
  intros Hcol rx rz Hok HX. unfold x_seed.
  destruct (fst (pauli_at rx col)) eqn:E.
  { split; [constructor|]. rewrite circuit_conj_nil. auto. }
  destruct (xsum_true _ _ (rows_anticommute _ _ _ _ Hok)) as (i & Hi & Hanti).
  assert (Hxi : fst (pauli_at rx i) = true).
  { unfold anticommute_at in Hanti. rewrite (HX i) in Hanti. cbn in Hanti.
    rewrite xorb_false_r in Hanti. now apply andb_true_iff in Hanti. }
  assert (Hrange : S col <= i < S col + (n - S col)).
  { destruct (Nat.ltb_spec i col) as [Hlt|Hge].
    - rewrite (rx_below _ _ _ _ Hok i Hlt) in Hxi. discriminate.
    - destruct (Nat.eq_dec i col) as [->|]; [congruence|lia]. }
  destruct (find (fun q => fst (pauli_at rx q)) (seq (S col) (n - S col))) as [q|] eqn:F.
  2:{ apply find_none with (x := i) in F; [congruence|now apply in_seq]. }
  apply find_some in F. destruct F as [Hin Hq]. apply in_seq in Hin.
  pose proof (rx_length _ _ _ _ Hok) as Hlen.
  split; [repeat constructor; lia|].
  rewrite circuit_conj_CX, circuit_conj_nil.
  split.
  - intros q'. rewrite pauli_at_conj_CX by lia. eqb_cases; cbn [snd]; rewrite ?HX; auto.
  - rewrite pauli_at_conj_CX by lia. rewrite Nat.eqb_refl. cbn [fst].
    now rewrite E, Hq.
Qed.

Lemma x_clear_step col n q done :
  col < q < n ->
  triple col n
    (fun rx _ => X_type rx /\ fst (pauli_at rx col) = true /\
                 forall q', In q' done -> fst (pauli_at rx q') = false)
    (x_clear col q)
    (fun rx _ => X_type rx /\ fst (pauli_at rx col) = true /\
                 forall q', In q' (done ++ [q]) -> fst (pauli_at rx q') = false).
Proof.
  intros Hq rx rz Hok (HX & Hc & Hd). unfold x_clear.
  pose proof (rx_length _ _ _ _ Hok) as Hlen.
  destruct (fst (pauli_at rx q)) eqn:E.
  - split; [repeat constructor; lia|].
    rewrite circuit_conj_CX, circuit_conj_nil.
    split; [|split].
    + intros q'. rewrite pauli_at_conj_CX by lia. eqb_cases; cbn [snd]; rewrite ?HX; auto.
    + rewrite pauli_at_conj_CX by lia.
      destruct (Nat.eqb_spec col q); [lia|]. now rewrite Nat.eqb_refl.
    + intros q' Hin. rewrite pauli_at_conj_CX by lia.
      destruct (Nat.eqb_spec q' q) as [->|Hne]; [cbn [fst]; now rewrite E, Hc|].
      apply in_app_iff in Hin. destruct Hin as [Hin|[->|[]]]; [|contradiction].
      destruct (Nat.eqb_spec q' col) as [->|]; [|now apply Hd].
      rewrite Hd in Hc by assumption. discriminate.
  - split; [constructor|]. rewrite circuit_conj_nil.
    split; [exact HX|]. split; [exact Hc|].
    intros q' Hin. apply in_app_iff in Hin. destruct Hin as [Hin|[<-|[]]]; auto.
Qed.

Lemma x_clear_sweep col n :
  col < n ->
  triple col n
    (fun rx _ => X_type rx /\ fst (pauli_at rx col) = true)
    (sweep (x_clear col) (seq (S col) (n - S col)))
    (fun rx _ => X_done col rx).
Proof.
  intros Hcol.
  apply triple_weaken
    with (P := fun rx _ => X_type rx /\ fst (pauli_at rx col) = true /\
                           forall q', In q' [] -> fst (pauli_at rx q') = false)
         (Q := fun rx _ => X_type rx /\ fst (pauli_at rx col) = true /\
                           forall q', In q' (seq (S col) (n - S col))
                                      -> fst (pauli_at rx q') = false).
  - intros rx rz _ [HX Hc]. split; [exact HX|]. split; [exact Hc|]. intros q' [].
  - intros rx rz Hok (HX & Hc & Hd) q.
    destruct (Nat.eqb_spec q col) as [->|Hne].
    + specialize (HX col). destruct (pauli_at rx col) as [x z]. cbn in *. now subst.
    + destruct (Nat.ltb_spec q col) as [Hlt|Hge].
      * now apply (rx_below _ _ _ _ Hok).
      * destruct (Nat.ltb_spec q n) as [Hin|Hout].
        -- specialize (HX q). specialize (Hd q).
           destruct (pauli_at rx q) as [x z]. cbn in *. subst z.
           rewrite Hd; [reflexivity|]. apply in_seq. lia.
        -- apply pauli_at_outside. rewrite (rx_length _ _ _ _ Hok). lia.
  - apply triple_sweep
      with (Inv := fun done rx _ =>
                     X_type rx /\ fst (pauli_at rx col) = true /\
                     forall q', In q' done -> fst (pauli_at rx q') = false).
    intros done q rest E. apply x_clear_step.
    apply in_seq_middle in E. lia.
Qed.

(** *** The steps on the Z row *)

Ltac pointwise H :=
  eqb_cases; try lia; try reflexivity; try contradiction;
  rewrite H; eqb_cases; try lia; try reflexivity; try contradiction.

(** Once the X row is X on the diagonal, the Z row, which anticommutes with
    it, has a Z component on the diagonal. *)
Lemma diagonal_z col n rx rz :
  col < n -> rows_ok col n rx rz -> X_done col rx -> snd (pauli_at rz col) = true.
Proof.
  intros Hcol Hok HX.
  pose proof (rows_anticommute _ _ _ _ Hok) as Ha. unfold anticommute in Ha.
  rewrite (@xsum_single n _ col Hcol) in Ha.
  - rewrite HX, Nat.eqb_refl in Ha. unfold anticommute_at in Ha. cbn in Ha.
    now rewrite xorb_false_r in Ha.
  - intros i _ Hne. rewrite HX. apply Nat.eqb_neq in Hne. now rewrite Hne.
Qed.

Lemma z_rotate_step col n q done :
  col < q < n ->
  triple col n
    (fun rx rz => X_done col rx /\
                  forall q', In q' done -> fst (pauli_at rz q') = false)
    (z_rotate q)
    (fun rx rz => X_done col rx /\
                  forall q', In q' (done ++ [q]) -> fst (pauli_at rz q') = false).
Proof.
  intros Hq rx rz Hok (HX & Hd). unfold z_rotate.
  assert (HI : pauli_at rx q = pauli_I).
  { rewrite HX. destruct (Nat.eqb_spec q col); [lia|reflexivity]. }
  destruct (pauli_at rz q) as [[] []] eqn:E.
  - split; [repeat constructor; lia|].
    rewrite !circuit_conj_S, !circuit_conj_H, !circuit_conj_nil. split.
    + intros q'. rewrite conj_H_at, !conj_S_at, Nat.eqb_refl, HI. pointwise HX.
    + intros q' Hin. rewrite conj_H_at, !conj_S_at, Nat.eqb_refl, E.
      destruct (Nat.eqb_spec q' q) as [->|Hne]; [reflexivity|].
      apply in_app_iff in Hin. destruct Hin as [Hin|[->|[]]]; [auto|contradiction].
  - split; [repeat constructor; lia|].
    rewrite !circuit_conj_H, !circuit_conj_nil. split.
    + intros q'. rewrite conj_H_at, HI. pointwise HX.
    + intros q' Hin. rewrite conj_H_at, E.
      destruct (Nat.eqb_spec q' q) as [->|Hne]; [reflexivity|].
      apply in_app_iff in Hin. destruct Hin as [Hin|[->|[]]]; [auto|contradiction].
  - split; [constructor|]. rewrite !circuit_conj_nil. split; [exact HX|].
    intros q' Hin. apply in_app_iff in Hin. destruct Hin as [Hin|[<-|[]]]; [auto|now rewrite E].
  - split; [constructor|]. rewrite !circuit_conj_nil. split; [exact HX|].
    intros q' Hin. apply in_app_iff in Hin. destruct Hin as [Hin|[<-|[]]]; [auto|now rewrite E].
Qed.

Lemma z_rotate_sweep col n :
  triple col n
    (fun rx _ => X_done col rx)
    (sweep z_rotate (seq (S col) (n - S col)))
    (fun rx rz => X_done col rx /\ forall q, col < q -> fst (pauli_at rz q) = false).
Proof.
  apply triple_weaken
    with (P := fun rx rz => X_done col rx /\
                            forall q', In q' [] -> fst (pauli_at rz q') = false)
         (Q := fun rx rz => X_done col rx /\
                            forall q', In q' (seq (S col) (n - S col))
                                       -> fst (pauli_at rz q') = false).
  - intros rx rz _ HX. split; [exact HX|]. intros q' [].
  - intros rx rz Hok (HX & Hd). split; [exact HX|]. intros q Hq.
    destruct (Nat.ltb_spec q n) as [Hin|Hout].
    + apply Hd. apply in_seq. lia.
    + rewrite pauli_at_outside; [reflexivity|]. rewrite (rz_length _ _ _ _ Hok). lia.
  - apply triple_sweep
      with (Inv := fun done rx rz =>
                     X_done col rx /\
                     forall q', In q' done -> fst (pauli_at rz q') = false).
    intros done q rest E. apply z_rotate_step.
    apply in_seq_middle in E. lia.
Qed.

Lemma z_clear_step col n q done :
  col < q < n ->
  triple col n
    (fun rx rz => X_done col rx /\
                  (forall q', col < q' -> fst (pauli_at rz q') = false) /\
                  forall q', In q' done -> snd (pauli_at rz q') = false)
    (z_clear col q)
    (fun rx rz => X_done col rx /\
                  (forall q', col < q' -> fst (pauli_at rz q') = false) /\
                  forall q', In q' (done ++ [q]) -> snd (pauli_at rz q') = false).
Proof.
  intros Hq rx rz Hok (HX & Hf & Hd). unfold z_clear.
  pose proof (rx_length _ _ _ _ Hok) as Hlx.
  pose proof (rz_length _ _ _ _ Hok) as Hlz.
  assert (Hdiag : snd (pauli_at rz col) = true) by (apply diagonal_z with n rx; auto; lia).
  assert (HI : pauli_at rx q = pauli_I).
  { rewrite HX. destruct (Nat.eqb_spec q col); [lia|reflexivity]. }
  assert (HXc : pauli_at rx col = pauli_X) by now rewrite HX, Nat.eqb_refl.
  destruct (snd (pauli_at rz q)) eqn:E.
  - split; [repeat constructor; lia|].
    rewrite !circuit_conj_CX, !circuit_conj_nil.
    split; [|split].
    + intros q'. rewrite pauli_at_conj_CX by lia. rewrite HI, HXc. cbn [fst snd xorb].
      pointwise HX.
    + intros q' Hq'. rewrite pauli_at_conj_CX by lia.
      destruct (Nat.eqb_spec q' col); [lia|].
      destruct (Nat.eqb_spec q' q) as [->|]; cbn [fst]; now apply Hf.
    + intros q' Hin. rewrite pauli_at_conj_CX by lia.
      apply in_app_iff in Hin.
      destruct (Nat.eqb_spec q' col) as [->|Hnc].
      * destruct Hin as [Hin|[->|[]]]; [|lia].
        rewrite Hd in Hdiag by assumption. discriminate.
      * destruct (Nat.eqb_spec q' q) as [->|Hne]; [cbn [snd]; now rewrite E, Hdiag|].
        destruct Hin as [Hin|[->|[]]]; [auto|contradiction].
  - split; [constructor|]. rewrite !circuit_conj_nil.
    split; [exact HX|]. split; [exact Hf|].
    intros q' Hin. apply in_app_iff in Hin. destruct Hin as [Hin|[<-|[]]]; auto.
Qed.

Lemma z_clear_sweep col n :
  col < n ->
  triple col n
    (fun rx rz => X_done col rx /\ forall q, col < q -> fst (pauli_at rz q) = false)
    (sweep (z_clear col) (seq (S col) (n - S col)))
    (fun rx rz => X_done col rx /\ forall q, col < q -> pauli_at rz q = pauli_I).
Proof.
  intros Hcol.
  apply triple_weaken
    with (P := fun rx rz => X_done col rx /\
                            (forall q', col < q' -> fst (pauli_at rz q') = false) /\
                            forall q', In q' [] -> snd (pauli_at rz q') = false)
         (Q := fun rx rz => X_done col rx /\
                            (forall q', col < q' -> fst (pauli_at rz q') = false) /\
                            forall q', In q' (seq (S col) (n - S col))
                                       -> snd (pauli_at rz q') = false).
  - intros rx rz _ [HX Hf]. split; [exact HX|]. split; [exact Hf|]. intros q' [].
  - intros rx rz Hok (HX & Hf & Hd). split; [exact HX|]. intros q Hq.
    destruct (Nat.ltb_spec q n) as [Hin|Hout].
    + specialize (Hf q Hq). specialize (Hd q).
      destruct (pauli_at rz q) as [x z]. cbn in *. subst x.
      rewrite Hd; [reflexivity|]. apply in_seq. lia.
    + apply pauli_at_outside. rewrite (rz_length _ _ _ _ Hok). lia.
  - apply triple_sweep
      with (Inv := fun done rx rz =>
                     X_done col rx /\
                     (forall q', col < q' -> fst (pauli_at rz q') = false) /\
                     forall q', In q' done -> snd (pauli_at rz q') = false).
    intros done q rest E. apply z_clear_step.
    apply in_seq_middle in E. lia.
Qed.

Lemma z_fix_step col n :
  col < n ->
  triple col n
    (fun rx rz => X_done col rx /\ forall q, col < q -> pauli_at rz q = pauli_I)
    (z_fix col)
    (fun rx rz => X_done col rx /\ Z_done col rz).
Proof.
  intros Hcol rx rz Hok (HX & Hz). unfold z_fix.
  assert (Hdiag : snd (pauli_at rz col) = true) by (apply diagonal_z with n rx; auto).
  assert (HXc : pauli_at rx col = pauli_X) by now rewrite HX, Nat.eqb_refl.
  assert (Hrest : forall q, q <> col -> pauli_at rz q = pauli_I).
  { intros q Hne. destruct (Nat.ltb_spec q col) as [Hlt|Hge].
    - now apply (rz_below _ _ _ _ Hok).
    - apply Hz. lia. }
  destruct (pauli_at rz col) as [x z] eqn:E. cbn [fst snd] in *. subst z.
  destruct x.
  - split; [repeat constructor; lia|].
    rewrite !circuit_conj_H, !circuit_conj_S, !circuit_conj_H, !circuit_conj_nil. split.
    + intros q. rewrite !conj_H_at, !conj_S_at, !conj_H_at, !Nat.eqb_refl, HXc.
      pointwise HX.
    + intros q. rewrite !conj_H_at, !conj_S_at, !conj_H_at, !Nat.eqb_refl, E.
      destruct (Nat.eqb_spec q col) as [->|]; [reflexivity|]. now apply Hrest.
  - split; [constructor|]. rewrite !circuit_conj_nil. split; [exact HX|].
    intros q. destruct (Nat.eqb_spec q col) as [->|]; [exact E|now apply Hrest].
Qed.

Lemma x_sign_step col n :
  col < n ->
  triple col n
    (fun rx rz => X_done col rx /\ Z_done col rz)
    (x_sign col)
    (fun rx rz => X_done col rx /\ Z_done col rz /\ sign rx = false).
Proof.
  intros Hcol rx rz Hok (HX & HZ). unfold x_sign.
  assert (HXc : pauli_at rx col = pauli_X) by now rewrite HX, Nat.eqb_refl.
  assert (HZc : pauli_at rz col = pauli_Z) by now rewrite HZ, Nat.eqb_refl.
  destruct (sign rx) eqn:Es.
  - split; [repeat constructor; lia|].
    rewrite !circuit_conj_S, !circuit_conj_nil. split; [|split].
    + intros q. rewrite !conj_S_at, !Nat.eqb_refl, HXc.
      pointwise HX.
    + intros q. rewrite !conj_S_at, !Nat.eqb_refl, HZc.
      pointwise HZ.
    + rewrite !conj_S_sign, conj_S_at, Nat.eqb_refl, HXc, Es. reflexivity.
  - split; [constructor|]. rewrite !circuit_conj_nil. auto.
Qed.

Lemma z_sign_step col n :
  col < n ->
  triple col n
    (fun rx rz => X_done col rx /\ Z_done col rz /\ sign rx = false)
    (z_sign col)
    (fun rx rz => (X_done col rx /\ sign rx = false) /\
                  (Z_done col rz /\ sign rz = false)).
Proof.
  intros Hcol rx rz Hok (HX & HZ & Hs). unfold z_sign.
  assert (HXc : pauli_at rx col = pauli_X) by now rewrite HX, Nat.eqb_refl.
  assert (HZc : pauli_at rz col = pauli_Z) by now rewrite HZ, Nat.eqb_refl.
  destruct (sign rz) eqn:Es.
  - split; [repeat constructor; lia|].
    rewrite !circuit_conj_H, !circuit_conj_S, !circuit_conj_H, !circuit_conj_nil.
    split; split.
    + intros q. rewrite !conj_H_at, !conj_S_at, !conj_H_at, !Nat.eqb_refl, HXc.
      pointwise HX.
    + rewrite !conj_H_sign, !conj_S_sign, !conj_H_sign.
      rewrite !conj_H_at, !conj_S_at, !conj_H_at, !Nat.eqb_refl, HXc, Hs. reflexivity.
    + intros q. rewrite !conj_H_at, !conj_S_at, !conj_H_at, !Nat.eqb_refl, HZc.
      pointwise HZ.
    + rewrite !conj_H_sign, !conj_S_sign, !conj_H_sign.
      rewrite !conj_H_at, !conj_S_at, !conj_H_at, !Nat.eqb_refl, HZc, Es. reflexivity.
  - split; [constructor|]. rewrite !circuit_conj_nil. auto.
Qed.

(** *** A column *)

Lemma single_pauli_length n q u : length (paulis (single_pauli n q u)) = n.
Proof. unfold single_pauli. cbn [paulis]. now rewrite length_map, length_seq. Qed.

Lemma nth_map_seq (A : Type) (f : nat -> A) n i d :
  i < n -> nth i (map f (seq 0 n)) d = f i.
Proof.
  intros Hi. rewrite nth_indep with (d' := f 0) by now rewrite length_map, length_seq.
  now rewrite map_nth, seq_nth.
Qed.

Lemma pauli_at_single n q u i :
  pauli_at (single_pauli n q u) i
  = if (i <? n) && (i =? q) then u else pauli_I.
Proof.
  unfold pauli_at, single_pauli. cbn [paulis].
  destruct (Nat.ltb_spec i n) as [Hin|Hout]; cbn [andb].
  - now rewrite nth_map_seq.
  - apply nth_overflow. now rewrite length_map, length_seq.
Qed.

Lemma done_is_single n col u p :
  length (paulis p) = n ->
  (forall q, pauli_at p q = if q =? col then u else pauli_I) ->
  sign p = false ->
  p = single_pauli n col u.
Proof.
  intros Hlen Hp Hs. apply PauliString_eq; [exact Hs|].
  apply paulis_ext; [now rewrite single_pauli_length|].
  intros i Hi. fold (pauli_at p i). fold (pauli_at (single_pauli n col u) i).
  rewrite Hp, pauli_at_single. rewrite Hlen in Hi.
  apply Nat.ltb_lt in Hi. now rewrite Hi.
Qed.

(** The gates of a column bring its two rows to +X_col and +Z_col. *)
Lemma column_gates_reduce col n :
  col < n ->
  triple col n (fun _ _ => True) (column_gates col n)
    (fun rx rz => rx = single_pauli n col pauli_X /\ rz = single_pauli n col pauli_Z).
Proof.
  intros Hcol. unfold column_gates.
  apply triple_weaken
    with (P := fun _ _ => True)
         (Q := fun rx rz => (X_done col rx /\ sign rx = false) /\
                            (Z_done col rz /\ sign rz = false)).
  - auto.
  - intros rx rz Hok [[HX Hsx] [HZ Hsz]]. split.
    + apply done_is_single; auto. apply (rx_length _ _ _ _ Hok).
    + apply done_is_single; auto. apply (rz_length _ _ _ _ Hok).
  - eapply triple_and_then; [apply x_rotate_sweep|].
    eapply triple_and_then; [now apply x_seed_step|].
    eapply triple_and_then; [now apply x_clear_sweep|].
    eapply triple_and_then; [apply z_rotate_sweep|].
    eapply triple_and_then; [now apply z_clear_sweep|].
    eapply triple_and_then; [now apply z_fix_step|].
    eapply triple_and_then; [now apply x_sign_step|].
    now apply z_sign_step.
Qed.

(** *** The tableau *)

(** Modelled from the spec: the invariant of [Tableau], "rows must satisfy
    the symplectic commutation relations (stabilizer generators mutually
    commute; destabilizer/stabilizer pairs anti-commute appropriately)": [n]
    X rows and [n] Z rows on [n] qubits each; two X rows commute, two Z rows
    commute, and the rows X_i and Z_j anticommute exactly when [i = j]. *)
Record valid_tableau (n : nat) (t : Tableau) : Prop := {
  xs_count : length (xs t) = n;
  zs_count : length (zs t) = n;
  xs_length : forall i, i < n -> length (paulis (row (xs t) i)) = n;
  zs_length : forall i, i < n -> length (paulis (row (zs t) i)) = n;
  xs_commute : forall i j, i < n -> j < n ->
    anticommute n (row (xs t) i) (row (xs t) j) = false;
  zs_commute : forall i j, i < n -> j < n ->
    anticommute n (row (zs t) i) (row (zs t) j) = false;
  xz_anticommute : forall i j, i < n -> j < n ->
    anticommute n (row (xs t) i) (row (zs t) j) = (i =? j)
}.

(** The rows below [col] are already those of the identity. *)
Definition reduced_below (col n : nat) (t : Tableau) : Prop :=
  forall i, i < col ->
    row (xs t) i = single_pauli n i pauli_X /\
    row (zs t) i = single_pauli n i pauli_Z.

Lemma row_map f rows i :
  i < length rows -> row (map f rows) i = f (row rows i).
Proof.
  intros Hi. unfold row.
  rewrite nth_indep with (d' := f {| sign := false; paulis := [] |})
    by now rewrite length_map.
  apply map_nth.
Qed.

Lemma valid_conj n c t :
  Forall (basic 0 n) c -> valid_tableau n t ->
  valid_tableau n (tableau_map (circuit_conj c) t).
Proof.
  intros Hc [Hx Hz Hlx Hlz Hxx Hzz Hxz]. unfold tableau_map.
  constructor; cbn [xs zs].
  - now rewrite length_map.
  - now rewrite length_map.
  - intros i Hi. rewrite row_map by lia.
    rewrite (circuit_length _ _ _ _ Hc). auto.
  - intros i Hi. rewrite row_map by lia.
    rewrite (circuit_length _ _ _ _ Hc). auto.
  - intros i j Hi Hj. rewrite !row_map by lia.
    rewrite (circuit_anticommute _ _ _ _ _ Hc); auto.
  - intros i j Hi Hj. rewrite !row_map by lia.
    rewrite (circuit_anticommute _ _ _ _ _ Hc); auto.
  - intros i j Hi Hj. rewrite !row_map by lia.
    rewrite (circuit_anticommute _ _ _ _ _ Hc); auto.
Qed.

Lemma anticommute_single_r n a q u :
  q < n ->
  anticommute n a (single_pauli n q u) = anticommute_at (pauli_at a q) u.
Proof.
  intros Hq. unfold anticommute.
  rewrite (@xsum_single n _ q Hq).
  - rewrite pauli_at_single, Nat.eqb_refl.
    apply Nat.ltb_lt in Hq. now rewrite Hq.
  - intros i Hi Hne. rewrite pauli_at_single.
    apply Nat.eqb_neq in Hne. rewrite Hne, andb_false_r.
    unfold anticommute_at. cbn. now rewrite !andb_false_r.
Qed.

Lemma anticommute_single_l n b q u :
  q < n ->
  anticommute n (single_pauli n q u) b = anticommute_at u (pauli_at b q).
Proof.
  intros Hq. rewrite anticommute_sym, anticommute_single_r by assumption.
  unfold anticommute_at.
  destruct u as [[] []], (pauli_at b q) as [[] []]; reflexivity.
Qed.

(** In a valid tableau whose rows below [col] are reduced, the rows of
    column [col] are the identity on the qubits below [col]. *)
Lemma rows_of_column col n t :
  valid_tableau n t -> reduced_below col n t -> col < n ->
  rows_ok col n (row (xs t) col) (row (zs t) col).
Proof.
  intros [Hx Hz Hlx Hlz Hxx Hzz Hxz] Hred Hcol. constructor; auto.
  - intros q Hq. destruct (Hred q Hq) as [Ex Ez].
    pose proof (Hxx col q Hcol ltac:(lia)) as H1.
    pose proof (Hxz col q Hcol ltac:(lia)) as H2.
    rewrite Ex, anticommute_single_r in H1 by lia.
    rewrite Ez, anticommute_single_r in H2 by lia.
    destruct (Nat.eqb_spec col q); [lia|].
    unfold anticommute_at in H1, H2.
    destruct (pauli_at (row (xs t) col) q) as [[] []];
      cbn in H1, H2; try discriminate; reflexivity.
  - intros q Hq. destruct (Hred q Hq) as [Ex Ez].
    pose proof (Hxz q col ltac:(lia) Hcol) as H1.
    pose proof (Hzz q col ltac:(lia) Hcol) as H2.
    rewrite Ex, anticommute_single_l in H1 by lia.
    rewrite Ez, anticommute_single_l in H2 by lia.
    destruct (Nat.eqb_spec q col); [lia|].
    unfold anticommute_at in H1, H2.
    destruct (pauli_at (row (zs t) col) q) as [[] []];
      cbn in H1, H2; try discriminate; reflexivity.
  - rewrite Hxz by assumption. apply Nat.eqb_refl.
Qed.

Lemma single_fixed col n i u c :
  i < col -> Forall (basic col n) c ->
  circuit_conj c (single_pauli n i u) = single_pauli n i u.
Proof.
  intros Hi Hc. apply (circuit_fixed col n); [exact Hc|].
  intros q Hq. rewrite pauli_at_single.
  destruct (Nat.eqb_spec q i); [lia|]. now rewrite andb_false_r.
Qed.

Lemma column_step col n t :
  valid_tableau n t -> reduced_below col n t -> col < n ->
  Forall (basic col n) (column_gates col n (row (xs t) col) (row (zs t) col)) /\
  reduced_below (S col) n
    (tableau_map
       (circuit_conj (column_gates col n (row (xs t) col) (row (zs t) col))) t).
Proof.
  intros Hv Hred Hcol.
  destruct (column_gates_reduce col n Hcol _ _ (rows_of_column _ _ _ Hv Hred Hcol) Logic.I)
    as [Hb [Ex Ez]].
  split; [exact Hb|].
  intros i Hi. unfold tableau_map. cbn [xs zs].
  rewrite !row_map by (rewrite ?(xs_count _ _ Hv), ?(zs_count _ _ Hv); lia).
  destruct (Nat.eq_dec i col) as [->|Hne]; [auto|].
  destruct (Hred i ltac:(lia)) as [Hx Hz]. rewrite Hx, Hz.
  split; apply single_fixed with col; auto; lia.
Qed.

Lemma reduced_is_identity n t :
  valid_tableau n t -> reduced_below n n t -> t = identity_tableau n.
Proof.
  intros Hv Hred. destruct t as [rx rz]. unfold identity_tableau.
  pose proof (xs_count _ _ Hv) as Hx. pose proof (zs_count _ _ Hv) as Hz.
  cbn [xs zs] in *.
  f_equal.
  - apply nth_ext with (d := {| sign := false; paulis := [] |})
                       (d' := {| sign := false; paulis := [] |}).
    + now rewrite length_map, length_seq.
    + intros i Hi. rewrite Hx in Hi.
      rewrite nth_map_seq by assumption. apply (Hred i Hi).
  - apply nth_ext with (d := {| sign := false; paulis := [] |})
                       (d' := {| sign := false; paulis := [] |}).
    + now rewrite length_map, length_seq.
    + intros i Hi. rewrite Hz in Hi.
      rewrite nth_map_seq by assumption. apply (Hred i Hi).
Qed.

(** The elimination reduces a valid tableau to the identity. *)
Lemma eliminate_reduces n :
  forall columns col t,
    col + columns = n ->
    valid_tableau n t -> reduced_below col n t ->
    Forall (basic 0 n) (eliminate columns col n t) /\
    tableau_map (circuit_conj (eliminate columns col n t)) t = identity_tableau n.
Proof.
  induction columns as [|columns IH]; intros col t Hn Hv Hred.
  - cbn [eliminate]. split; [constructor|].
    replace col with n in Hred by lia.
    rewrite <- (reduced_is_identity n t Hv Hred).
    apply tableau_map_id.
  - cbn [eliminate].
    destruct (column_step col n t Hv Hred ltac:(lia)) as [Hb Hred'].
    assert (Hb0 : Forall (basic 0 n)
                    (column_gates col n (row (xs t) col) (row (zs t) col))).
    { eapply Forall_impl; [|exact Hb]. intros op. apply basic_weaken. lia. }
    destruct (IH (S col) _ ltac:(lia) (valid_conj n _ t Hb0 Hv) Hred') as [Hb' E].
    split; [now apply Forall_app|].
    rewrite <- E, tableau_map_map.
    apply tableau_map_ext. intros p. apply circuit_conj_app.
Qed.

(** *** Undoing the gates *)

Lemma conj_S_DAG_at q p i :
  pauli_at (conj_S_DAG q p) i = if i =? q then S_image (pauli_at p q) else pauli_at p i.
Proof. now apply pauli_at_conj1. Qed.

(** S is a quarter turn: three of them undo one. *)
Lemma conj_S_cubed q p : conj_S q (conj_S q (conj_S q p)) = conj_S_DAG q p.
Proof.
  apply PauliString_eq.
  - rewrite !conj_S_sign, !conj_S_at, !Nat.eqb_refl.
    change (sign (conj_S_DAG q p)) with (xorb (sign p) (S_DAG_negated (pauli_at p q))).
    destruct (sign p), (pauli_at p q) as [[] []]; reflexivity.
  - apply paulis_ext.
    + unfold conj_S, conj_S_DAG. now rewrite !conj1_length.
    + intros i _.
      fold (pauli_at (conj_S q (conj_S q (conj_S q p))) i).
      fold (pauli_at (conj_S_DAG q p) i).
      rewrite !conj_S_at, conj_S_DAG_at, !Nat.eqb_refl.
      destruct (i =? q); [|reflexivity].
      destruct (pauli_at p q) as [[] []]; reflexivity.
Qed.

Lemma undo_gate_undoes lo n op p :
  basic lo n op -> circuit_conj (undo_gate op) (instruction_conj op p) = p.
Proof.
  intros [q _|q _|c t _ _ _].
  - apply conj_H_involutive.
  - change (conj_S q (conj_S q (conj_S q (conj_S q p))) = p).
    rewrite conj_S_cubed. apply conj_S_DAG_S.
  - apply conj_CX_involutive.
Qed.

Lemma undo_gate_basic lo n op :
  basic lo n op -> Forall (basic lo n) (undo_gate op).
Proof.
  intros H. destruct H as [q Hq|q Hq|c t Hc Ht Hne].
  - constructor; [now constructor|constructor].
  - change (undo_gate (gate_S q)) with [gate_S q; gate_S q; gate_S q].
    repeat (constructor; [now constructor|]). constructor.
  - constructor; [now constructor|constructor].
Qed.

Lemma undo_circuit_basic lo n c :
  Forall (basic lo n) c -> Forall (basic lo n) (flat_map undo_gate (rev c)).
Proof.
  intros H. apply Forall_flat_map. apply Forall_rev.
  eapply Forall_impl; [|exact H]. intros op. apply undo_gate_basic.
Qed.

Lemma undo_circuit_undoes lo n c p :
  Forall (basic lo n) c ->
  circuit_conj (flat_map undo_gate (rev c)) (circuit_conj c p) = p.
Proof.
  intros H. revert p. induction H as [|op c Hop _ IH]; intros p; [reflexivity|].
  cbn [rev]. rewrite flat_map_app, circuit_conj_app. cbn [flat_map].
  rewrite app_nil_r.
  change (circuit_conj (op :: c) p) with (circuit_conj c (instruction_conj op p)).
  rewrite IH. now apply undo_gate_undoes with lo n.
Qed.

(** *** Compiling a circuit of H, S and CX gates *)

Lemma compile_from_basic lo n c :
  Forall (basic lo n) c ->
  forall t,
    compile_from gate_kind apply_instruction false false false t c
    = Returns (run c t).
Proof.
  induction 1 as [|op c Hop _ IH]; intros t; [reflexivity|].
  cbn [compile_from].
  assert (E : compile_instruction gate_kind apply_instruction false false false t op
              = Returns (apply_instruction op t)).
  { destruct Hop; reflexivity. }
  rewrite E, IH. reflexivity.
Qed.

Definition count_from (m : nat) (c : StimCircuit) : nat :=
  fold_left (fun n op => fold_left (fun n q => Nat.max n (S q)) (targets op) n) c m.

Lemma count_from_le lo n c :
  Forall (basic lo n) c -> forall m, m <= n -> count_from m c <= n.
Proof.
  induction 1 as [|op c Hop _ IH]; intros m Hm; [exact Hm|].
  unfold count_from. cbn [fold_left]. apply IH.
  destruct Hop; cbn [targets instr gate_H gate_S gate_CX fold_left]; lia.
Qed.

Lemma count_qubits_le n c :
  Forall (basic 0 n) c -> count_qubits c <= n.
Proof. intros Hc. exact (count_from_le 0 n c Hc 0 (Nat.le_0_l n)). Qed.

Lemma count_qubits_padded n c :
  Forall (basic 0 n) c -> 0 < n ->
  count_qubits (c ++ [gate_H (n - 1); gate_H (n - 1)]) = n.
Proof.
  intros Hc Hn. unfold count_qubits. rewrite fold_left_app.
  pose proof (count_from_le 0 n c Hc 0 ltac:(lia)) as Hle.
  cbn [fold_left targets gate_H instr].
  match goal with
  | |- Nat.max (Nat.max ?a _) _ = _ => change a with (count_from 0 c)
  end.
  lia.
Qed.

Inductive synthesis_error : Type :=
| Unrecognized_method (method : String.string).

Section Dispatch.
Import String.

(** The graph-state and the measurement-based methods are not modelled:
    whatever circuit each returns. *)
Variable tableau_to_circuit_graph_method : Tableau -> StimCircuit.
Variable tableau_to_circuit_mpp_method : Tableau -> StimCircuit.

(** Modelled from the spec: [tableau_to_circuit] of [conversions.inl]:
    "dispatching on a string-valued method selector", a closed string enum
    with the values elimination, graph_state and mpp; "Unknown method strings
    fail with an 'unrecognized synthesis method' error". *)
Definition tableau_to_circuit (tableau : Tableau) (method : String.string)
    : outcome synthesis_error StimCircuit :=
  if String.eqb method "elimination"%string then
    Returns (tableau_to_circuit_elimination_method tableau)
  else if String.eqb method "graph_state"%string then
    Returns (tableau_to_circuit_graph_method tableau)
  else if String.eqb method "mpp"%string then
    Returns (tableau_to_circuit_mpp_method tableau)
  else Throws (Unrecognized_method method).

(** C1. For every tableau that satisfies the invariant of the data model,
    [tableau_to_circuit] with the method "elimination" returns a circuit,
    and that circuit compiles, with the three ignore-flags false, to that
    very tableau: the same rows with the same signs. *)
Theorem elimination_round_trip (t : Tableau)
    (Hvalid : valid_tableau (num_qubits t) t) :
  exists circuit,
    tableau_to_circuit t "elimination"%string = Returns circuit /\
    compile circuit false false false = Returns t.
Proof.
  exists (tableau_to_circuit_elimination_method t).
  split; [reflexivity|].
  set (n := num_qubits t) in *.
  destruct (eliminate_reduces n n 0 t ltac:(lia) Hvalid) as [Hb E].
  { intros i Hi. lia. }
  pose proof (undo_circuit_basic 0 n _ Hb) as Hu.
  assert (Hback : forall c,
            Forall (basic 0 n) c ->
            (forall p, circuit_conj c (circuit_conj (eliminate n 0 n t) p) = p) ->
            count_qubits c = n ->
            compile c false false false = Returns t).
  { intros c Hc Hundo Hcount. unfold compile, circuit_to_tableau.
    rewrite (compile_from_basic 0 n c Hc), Hcount, run_rows, <- E, tableau_map_map.
    f_equal. rewrite <- (tableau_map_id t) at 2.
    apply tableau_map_ext. exact Hundo. }
  unfold tableau_to_circuit_elimination_method. fold n.
  destruct (Nat.ltb_spec (count_qubits (flat_map undo_gate (rev (eliminate n 0 n t)))) n)
    as [Hlt|Hge].
  - apply Hback.
    + apply Forall_app. split; [exact Hu|]. repeat constructor; lia.
    + intros p. rewrite circuit_conj_app, (undo_circuit_undoes 0 n _ _ Hb).
      apply conj_H_involutive.
    + apply count_qubits_padded; [exact Hu|lia].
  - apply Hback; [exact Hu| |].
    + intros p. apply (undo_circuit_undoes 0 n _ _ Hb).
    + apply Nat.le_antisymm; [exact (count_qubits_le n _ Hu)|exact Hge].
Qed.

End Dispatch.

Lemma sample_tableau_valid : valid_tableau (num_qubits sample_tableau) sample_tableau.
Proof.
  constructor.
  - reflexivity.
  - reflexivity.
  - intros i Hi. destruct i as [|[|[|i]]]; [reflexivity..|vm_compute in Hi; lia].
  - intros i Hi. destruct i as [|[|[|i]]]; [reflexivity..|vm_compute in Hi; lia].
  - intros i j Hi Hj.
    destruct i as [|[|[|i]]]; [| | |vm_compute in Hi; lia];
      (destruct j as [|[|[|j]]]; [reflexivity..|vm_compute in Hj; lia]).
  - intros i j Hi Hj.
    destruct i as [|[|[|i]]]; [| | |vm_compute in Hi; lia];
      (destruct j as [|[|[|j]]]; [reflexivity..|vm_compute in Hj; lia]).
  - intros i j Hi Hj.
    destruct i as [|[|[|i]]]; [| | |vm_compute in Hi; lia];
      (destruct j as [|[|[|j]]]; [reflexivity..|vm_compute in Hj; lia]).
Defined.

Section DispatchWitness.
Import String.

Lemma elimination_round_trip_witness :
  valid_tableau (num_qubits sample_tableau) sample_tableau /\
  exists circuit,
    tableau_to_circuit (fun _ => []) (fun _ => []) sample_tableau "elimination"%string
    = Returns circuit /\
    compile circuit false false false = Returns sample_tableau.
Proof.
  split; [exact sample_tableau_valid|].
  exact (elimination_round_trip (fun _ => []) (fun _ => [])
           sample_tableau sample_tableau_valid).
Defined.

End DispatchWitness.

End Synthesis.
